(** * FIFO lot matching of tw-pnl.py

    A shallow embedding of the FIFO ledger of [tw-pnl.py] ([sign],
    [fifo_add], [fifos_islong]) and of the processing loop [check] with the
    validations it calls ([check_tcode], [check_param], [check_trade],
    [is_stock]), followed by the properties of the ledger and of the loop.
    Printing, the command line and the reading of the file are left out.

    Data model.
    - A lot is the two-element Python list [[price, quantity]]; it is a
      record here.  Quantities are Python integers ([Z]).  Prices, fees and
      amounts are Python floats; they are modelled as exact rationals ([Q]),
      so rounding and NaN are outside the model.  The conversion of an
      integer to a float, which can fail, is written out in [fifo_add_conv].
    - A queue is a [collections.deque] of lots: a [list Lot], front first.
    - [fifos] is a [dict] from asset key to queue: a [gmap string (list Lot)].
      The deque bound to [fifo] is the object stored in the dict, so every
      mutation of [fifo] is written back under the asset key.
    - Python exceptions are values of [exn]; a computation that may raise
      returns a [result]. *)

From Stdlib Require Import ZArith QArith Qabs Qminmax Lia Lqa.
From stdpp Require Import base option list gmap strings fin_maps pretty.

Local Open Scope Z_scope.

(** ** Exceptions *)

Inductive exn : Set :=
| RuntimeError        (* a bare [raise] *)
| KeyError            (* [d[k]] or [del d[k]] with [k] not in [d] *)
| IndexError          (* [q[0]] on an empty deque *)
| ZeroDivisionError   (* [x / 0] *)
| ValueError          (* [strptime] on a string that is not a date *)
| OverflowError.      (* [int * float] with an int beyond the range of a float *)

Inductive result (A : Type) : Type :=
| Ok (a : A)
| Raise (e : exn).
Arguments Ok {A} a.
Arguments Raise {A} e.

#[global] Instance result_ret : MRet result := fun _ a => Ok a.
#[global] Instance result_bind : MBind result := fun _ _ f r =>
  match r with
  | Ok a => f a
  | Raise e => Raise e
  end.

(** [if c: raise] *)
Definition raise_if (c : bool) : result unit :=
  if c then Raise RuntimeError else Ok tt.

(** ** Lots, queues and the ledger map *)

Record Lot : Set := mkLot { lot_price : Q; lot_quantity : Z }.

(** [d[k]] *)
Definition getitem {V} (d : gmap string V) (k : string) : result V :=
  match d !! k with
  | Some v => Ok v
  | None => Raise KeyError
  end.

(** [del d[k]] *)
Definition delitem {V} (d : gmap string V) (k : string) : result (gmap string V) :=
  match d !! k with
  | Some _ => Ok (delete k d)
  | None => Raise KeyError
  end.

(** ** [sign] and [fifo_add] *)

Definition sign (x : Z) : Z :=
  if 0 <=? x then 1 else -1.

(** How the [while] loop of [fifo_add] is left: by the [return] inside it
    ([deleted] tells whether [del fifos[asset]] ran), or by falling out of it
    ([break], or [len(fifo) == 0]) with the residual [quantity]. *)
Inductive loop_exit : Set :=
| Returned (pnl : Q) (fifo : list Lot) (deleted : bool)
| Completed (pnl : Q) (quantity : Z) (fifo : list Lot).

(** The [while len(fifo) > 0] loop.  Every iteration that does not leave the
    loop pops the front lot, so the recursion is structural in the queue. *)
Fixpoint fifo_loop (fifo : list Lot) (quantity : Z) (price pnl : Q) : loop_exit :=
  match fifo with
  | [] => Completed pnl quantity []
  | front :: rest =>
      if sign (lot_quantity front) =? sign quantity then
        Completed pnl quantity fifo
      else if Z.abs (lot_quantity front) >=? Z.abs quantity then
        let pnl := (pnl + inject_Z quantity * (lot_price front - price))%Q in
        let front := mkLot (lot_price front) (lot_quantity front + quantity) in
        if lot_quantity front =? 0 then
          Returned pnl rest (length rest =? 0)%nat
        else
          Returned pnl (front :: rest) false
      else
        let pnl := (pnl + inject_Z (lot_quantity front) * (price - lot_price front))%Q in
        let quantity := quantity + lot_quantity front in
        fifo_loop rest quantity price pnl
  end.

Definition fifo_add (fifos : gmap string (list Lot)) (quantity : Z) (price : Q)
    (asset : string) : result (Q * gmap string (list Lot)) :=
  let fifos :=
    match fifos !! asset with
    | None => <[asset := []]> fifos
    | Some _ => fifos
    end in
  fifo ← getitem fifos asset;
  match fifo_loop fifo quantity price 0 with
  | Returned pnl fifo deleted =>
      let fifos := <[asset := fifo]> fifos in
      if deleted then
        fifos ← delitem fifos asset;
        Ok (pnl, fifos)
      else
        Ok (pnl, fifos)
  | Completed pnl quantity fifo =>
      Ok (pnl, <[asset := fifo ++ [mkLot price quantity]]> fifos)
  end.

(** [fifos_islong]: [fifos[asset][0][1] > 0]. *)
Definition fifos_islong (fifos : gmap string (list Lot)) (asset : string) : result bool :=
  fifo ← getitem fifos asset;
  match fifo with
  | [] => Raise IndexError
  | front :: _ => Ok (0 <? lot_quantity front)
  end.

(** ** [fifo_add] with the conversion of its integer operands

    At lines 116 and 124 a Python int is multiplied by a float: the int is
    converted to a float first, and the conversion raises [OverflowError] for
    an int that does not round to a finite float, that is from
    [2**1024 - 2**970] on.  [fifo_loop] multiplies exactly; [fifo_loop_conv] is
    the same loop with the two conversions written out. *)

Definition float_bound : Z := 2 ^ 1024 - 2 ^ 970.

Definition float_of_int (n : Z) : result Q :=
  if Z.abs n <? float_bound then Ok (inject_Z n) else Raise OverflowError.

Fixpoint fifo_loop_conv (fifo : list Lot) (quantity : Z) (price pnl : Q)
    : result loop_exit :=
  match fifo with
  | [] => Ok (Completed pnl quantity [])
  | front :: rest =>
      if sign (lot_quantity front) =? sign quantity then
        Ok (Completed pnl quantity fifo)
      else if Z.abs (lot_quantity front) >=? Z.abs quantity then
        x ← float_of_int quantity;
        let pnl := (pnl + x * (lot_price front - price))%Q in
        let front := mkLot (lot_price front) (lot_quantity front + quantity) in
        if lot_quantity front =? 0 then
          Ok (Returned pnl rest (length rest =? 0)%nat)
        else
          Ok (Returned pnl (front :: rest) false)
      else
        x ← float_of_int (lot_quantity front);
        let pnl := (pnl + x * (price - lot_price front))%Q in
        let quantity := quantity + lot_quantity front in
        fifo_loop_conv rest quantity price pnl
  end.

Definition fifo_add_conv (fifos : gmap string (list Lot)) (quantity : Z) (price : Q)
    (asset : string) : result (Q * gmap string (list Lot)) :=
  let fifos :=
    match fifos !! asset with
    | None => <[asset := []]> fifos
    | Some _ => fifos
    end in
  fifo ← getitem fifos asset;
  e ← fifo_loop_conv fifo quantity price 0;
  match e with
  | Returned pnl fifo deleted =>
      let fifos := <[asset := fifo]> fifos in
      if deleted then
        fifos ← delitem fifos asset;
        Ok (pnl, fifos)
      else
        Ok (pnl, fifos)
  | Completed pnl quantity fifo =>
      Ok (pnl, <[asset := fifo ++ [mkLot price quantity]]> fifos)
  end.

(** All integers a call multiplies are within the range of a float. *)
Definition in_float_range (fifo : list Lot) (quantity : Z) : Prop :=
  Z.abs quantity < float_bound ∧
  Forall (λ lot, Z.abs (lot_quantity lot) < float_bound) fifo.

(** ** The lots a call consumes

    [consumed_by quantity consumed]: one after the other, the lots of
    [consumed] take the consume-and-continue branch of the loop (lines
    123-126) for the incoming [quantity]; [consumed_pnl] is the PnL that these
    iterations accumulate. *)
Fixpoint consumed_by (quantity : Z) (consumed : list Lot) : Prop :=
  match consumed with
  | [] => True
  | lot :: consumed =>
      sign (lot_quantity lot) ≠ sign quantity ∧
      Z.abs (lot_quantity lot) < Z.abs quantity ∧
      consumed_by (quantity + lot_quantity lot) consumed
  end.

Definition consumed_pnl (price : Q) (consumed : list Lot) : Q :=
  foldr (λ lot acc, inject_Z (lot_quantity lot) * (price - lot_price lot) + acc)%Q
        0%Q consumed.

(** ** Sequences of [fifo_add] calls *)

Record Trade : Set := mkTrade {
  trade_asset : string;
  trade_quantity : Z;
  trade_price : Q
}.

(** The calls [fifo_add(fifos, quantity, price, asset)] of a list of events,
    oldest first, on the same dict. *)
Fixpoint fifo_adds (fifos : gmap string (list Lot)) (evs : list Trade)
    : result (gmap string (list Lot)) :=
  match evs with
  | [] => Ok fifos
  | ev :: evs =>
      '(_, fifos) ← fifo_add fifos (trade_quantity ev) (trade_price ev) (trade_asset ev);
      fifo_adds fifos evs
  end.

(** The events of a sequence all have a non-zero quantity. *)
Definition nonzero_trades (evs : list Trade) : Prop :=
  Forall (λ ev, trade_quantity ev ≠ 0) evs.

(** Sum of the quantities of the lots of a queue, and the net open quantity
    of an asset ([0] when the key is absent). *)
Definition queue_quantity (fifo : list Lot) : Z :=
  foldr (λ lot acc, lot_quantity lot + acc) 0 fifo.

Definition net_quantity (fifos : gmap string (list Lot)) (asset : string) : Z :=
  queue_quantity (default [] (fifos !! asset)).

(** Sum of the quantities of the events of one asset. *)
Definition traded_quantity (asset : string) (evs : list Trade) : Z :=
  foldr (λ ev acc, if decide (trade_asset ev = asset) then trade_quantity ev + acc else acc)
        0 evs.

(** What [fifo_add] leaves in the dict and returns, given how the loop ended
    on the asset's queue (the empty queue when the key was absent). *)
Definition fifo_add_outcome (fifos : gmap string (list Lot)) (price : Q)
    (asset : string) (e : loop_exit) : Q * gmap string (list Lot) :=
  match e with
  | Returned pnl fifo deleted =>
      (pnl, if deleted then delete asset fifos else <[asset := fifo]> fifos)
  | Completed pnl quantity fifo =>
      (pnl, <[asset := fifo ++ [mkLot price quantity]]> fifos)
  end.

(** ** The lot invariants of the data model *)

Definition lots_nonzero (fifo : list Lot) : Prop :=
  Forall (λ lot, lot_quantity lot ≠ 0) fifo.

Definition lots_same_sign (fifo : list Lot) : Prop :=
  ∀ l1 l2, l1 ∈ fifo → l2 ∈ fifo → Z.sgn (lot_quantity l1) = Z.sgn (lot_quantity l2).

Definition lot_invariant (fifos : gmap string (list Lot)) : Prop :=
  ∀ asset fifo, fifos !! asset = Some fifo → lots_nonzero fifo ∧ lots_same_sign fifo.

Definition no_empty_queue (fifos : gmap string (list Lot)) : Prop :=
  ∀ asset, fifos !! asset ≠ Some [].

(** A queue whose lots are all long, all short, or either: the lot invariant
    in the form the loop preserves. *)
Definition all_long (fifo : list Lot) : Prop := Forall (λ lot, 0 < lot_quantity lot) fifo.
Definition all_short (fifo : list Lot) : Prop := Forall (λ lot, lot_quantity lot < 0) fifo.
Definition one_sided (fifo : list Lot) : Prop := all_long fifo ∨ all_short fifo.

(** Is the front lot of the asset's queue a short lot? *)
Definition front_is_short (fifos : gmap string (list Lot)) (asset : string) : bool :=
  match fifos !! asset with
  | Some (front :: _) => lot_quantity front <? 0
  | _ => false
  end.

(** ** The processing loop [check]: rows that reach the ledger

    [Row] holds the local variables of the loop body of [check] on entry to
    the [else:] branch (the rows whose transaction code is not
    ['Money Movement'], the only ones that touch [fifos]): text cells as
    [str] shows them (["nan"] for a missing cell), [quantity] after
    [int(quantity)], [price] after a missing price was replaced by [.0]
    (line 188 has rejected a negative price).

    Scope.  [fees] and [amount] are numbers: a row whose Fees or Amount cell
    is empty (the float NaN) has no value here, and what the code does with
    it is not stated by any lemma below.  [price] is a float: a Price column
    that holds integers only is read as 64-bit integers, whose products wrap,
    and is outside the model as well. *)

Record Row : Set := mkRow {
  tsubcode : string;
  symbol : string;
  buysell : string;
  quantity : Z;
  expire : string;
  strike : Q;
  callput : string;
  price : Q;
  fees : Q;
  amount : Q
}.

Definition etfs : list string :=
  ["DXJ";"EEM";"EFA";"EFA";"EWZ";"FEZ";"FXB";"FXE";"FXI";
   "GDX";"GDXJ";"GLD";"HYG";"IEF";"IWM";"IYR";"KRE";"OIH";"QQQ";
   "RSX";"SLV";"SMH";"SPY";"TLT";"UNG";"USO";"VXX";"XBI";"XHB";"XLB";
   "XLE";"XLF";"XLI";"XLK";"XLP";"XLU";"XLV";"XME";"XOP";"XRT"]%string.

(** [is_stock(symbol)] with the default [conservative=True]. *)
Definition is_stock (symbol : string) : result bool :=
  if bool_decide (symbol ∈ etfs) then Ok false
  else if bool_decide (symbol ∈ ["M";"AAPL";"TSLA"]%string) then Ok true
  else Raise RuntimeError.

(** [math.isclose(a, b, abs_tol=abs_tol)] with the default [rel_tol=1e-09]:
    [abs(a-b) <= max(rel_tol * max(abs(a), abs(b)), abs_tol)]. *)
Definition isclose (a b abs_tol : Q) : bool :=
  Qle_bool (Qabs (a - b))
           (Qmax ((1 # 1000000000) * Qmax (Qabs a) (Qabs b)) abs_tol).

(** The subcodes without a direction of their own, tested by membership at
    lines 65 and 257. *)
Definition closing_subcodes : list string :=
  ["Expiration"; "Assignment"; "Exercise"]%string.

(** [check_trade] on numbers: the tests [str(amount) != 'nan'] and
    [str(check_amount) != 'nan'] of lines 69-72 are true of every number and
    are not written. *)
Definition check_trade (tsubcode : string) (check_amount amount : Q) : result unit :=
  if bool_decide (tsubcode ∉ closing_subcodes) then
    raise_if (negb (isclose check_amount amount (1 # 100000)))
  else
    _ ← raise_if (negb (Qeq_bool amount 0));
    raise_if (negb (Qeq_bool check_amount 0)).

(** [int(x)] of a float: truncation towards zero. *)
Definition int_of (x : Q) : Z := Z.quot (Qnum x) (Z.pos (Qden x)).

Section Check.
(** [pydatetime.strptime(expire, '%m/%d/%Y').strftime('%y-%m-%d')] *)
Variable strftime_expire : string → result string.
(** ['%s' % strike] for a strike that is not integral *)
Variable str_float : Q → string.

(** Lines 242-252: the asset key, the price used for the amount check and
    the [check_stock] flag. *)
Definition asset_key (r : Row) : result (string * Q * bool) :=
  if bool_decide (expire r ≠ "nan"%string) then
    expire' ← strftime_expire (expire r);
    let price := (price r * 100)%Q in
    let strike' :=
      if Qeq_bool (inject_Z (int_of (strike r))) (strike r)
      then pretty (int_of (strike r)) else str_float (strike r) in
    Ok (symbol r +:+ " " +:+ callput r +:+ strike' +:+ " " +:+ expire', price, false)
  else
    check_stock ← is_stock (symbol r);
    Ok (symbol r, price r, check_stock).

(** Lines 256-258: the sign of the quantity.  [or] and [and] short-circuit,
    so [fifos_islong] is only called for a closing subcode of a row whose
    Buy/Sell cell is not ['Sell']. *)
Definition signed_quantity (fifos : gmap string (list Lot)) (r : Row)
    (asset : string) : result Z :=
  negate ←
    (if bool_decide (buysell r = "Sell"%string) then Ok true
     else if bool_decide (tsubcode r ∈ closing_subcodes) then fifos_islong fifos asset
     else Ok false);
  Ok (if negate : bool then - quantity r else quantity r).

(** Lines 242-260: the arguments of the call of [fifo_add] at line 261
    (asset, quantity, price) and [check_stock]. *)
Definition trade_args (fifos : gmap string (list Lot)) (r : Row)
    : result (string * Z * Q * bool) :=
  '(asset, price, check_stock) ← asset_key r;
  quantity ← signed_quantity fifos r asset;
  _ ← check_trade (tsubcode r) (- (inject_Z quantity * price))%Q (amount r);
  price ← (if quantity =? 0 then Raise ZeroDivisionError
           else Ok (Qabs ((amount r - fees r) / inject_Z quantity)));
  Ok (asset, quantity, price, check_stock).

(** The state the loop carries: the ledger and the two PnL sums. *)
Record State : Type := mkState {
  st_fifos : gmap string (list Lot);
  st_pnl_stocks : Q;
  st_pnl : Q
}.

(** Lines 242-266 for one row. *)
Definition check_row (st : State) (r : Row) : result State :=
  '(asset, quantity, price, check_stock) ← trade_args (st_fifos st) r;
  '(local_pnl, fifos) ← fifo_add (st_fifos st) quantity price asset;
  if check_stock : bool then
    Ok (mkState fifos (st_pnl_stocks st + local_pnl) (st_pnl st))
  else
    Ok (mkState fifos (st_pnl_stocks st) (st_pnl st + local_pnl)).

(** The loop over the rows, given in the order in which [check] visits
    them (from the last row of the file to the first).  Nothing in [check]
    or [main] catches an exception of the loop body: the first row that
    raises ends the run. *)
Fixpoint check_rows (st : State) (wk : list Row) : result State :=
  match wk with
  | [] => Ok st
  | r :: wk => st ← check_row st r; check_rows st wk
  end.
End Check.

(** ** The book value of the open lots *)

(** Sum of [quantity * price] over the lots of a queue: what the open
    position has cost (long lots) or brought in (short lots, negative). *)
Definition queue_cost (fifo : list Lot) : Q :=
  foldr (λ lot acc, inject_Z (lot_quantity lot) * lot_price lot + acc)%Q 0%Q fifo.

Definition book_value (fifos : gmap string (list Lot)) (asset : string) : Q :=
  queue_cost (default [] (fifos !! asset)).

(** A long queue none of whose lots cost more than [p]; a short queue none
    of whose lots was sold for less than [p]. *)
Definition bought_below (p : Q) (fifo : list Lot) : Prop :=
  Forall (λ lot, 0 < lot_quantity lot ∧ (lot_price lot <= p)%Q) fifo.

Definition sold_above (p : Q) (fifo : list Lot) : Prop :=
  Forall (λ lot, lot_quantity lot < 0 ∧ (p <= lot_price lot)%Q) fifo.

(** Every lot of the ledger has a price that is not negative. *)
Definition prices_nonneg (fifos : gmap string (list Lot)) : Prop :=
  ∀ asset fifo, fifos !! asset = Some fifo → Forall (λ lot, (0 <= lot_price lot)%Q) fifo.

(** The ledger is well formed: the lot invariant holds, no queue is empty
    and no price is negative. *)
Definition ledger_ok (fifos : gmap string (list Lot)) : Prop :=
  lot_invariant fifos ∧ no_empty_queue fifos ∧ prices_nonneg fifos.

(** ** The whole loop body of [check]

    [Csv] is a row of the frame [wk] as [check] reads it.  Text cells are
    given as [str] shows them (["nan"] for a missing cell): the code compares
    them with string literals only, none of which is ["nan"].  The account
    reference is compared cell against cell, where a missing cell (the float
    NaN) differs from everything, itself included: it is an [option].
    Quantity, strike and price are numbers or missing; fees and amount are
    numbers, as in [Row]: a row with an empty Fees or Amount cell is outside
    the model. *)

Record Csv : Set := mkCsv {
  wk_tcode : string;
  wk_tsubcode : string;
  wk_symbol : string;
  wk_buysell : string;
  wk_openclose : string;
  wk_quantity : option Q;
  wk_expire : string;
  wk_strike : option Q;
  wk_callput : string;
  wk_price : option Q;
  wk_fees : Q;
  wk_amount : Q;
  wk_description : string;
  wk_account_ref : option string
}.

Definition money_subcodes : list string :=
  ["Transfer"; "Deposit"; "Credit Interest"; "Balance Adjustment"; "Fee";
   "Withdrawal"; "Dividend"]%string.

Definition trade_subcodes : list string :=
  ["Sell to Open"; "Buy to Close"; "Buy to Open"; "Sell to Close"]%string.

Definition deliver_subcodes : list string :=
  ["Sell to Open"; "Buy to Close"; "Buy to Open"; "Sell to Close";
   "Expiration"; "Assignment"; "Exercise"]%string.

Definition check_tcode (tcode tsubcode description : string) : result unit :=
  _ ← raise_if (bool_decide (tcode ∉ ["Money Movement"; "Trade"; "Receive Deliver"]%string));
  if bool_decide (tcode = "Money Movement"%string) then
    _ ← raise_if (bool_decide (tsubcode ∉ money_subcodes));
    raise_if (bool_decide (tsubcode = "Balance Adjustment"%string)
              && bool_decide (description ≠ "Regulatory fee adjustment"%string))
  else if bool_decide (tcode = "Trade"%string) then
    raise_if (bool_decide (tsubcode ∉ trade_subcodes))
  else if bool_decide (tcode = "Receive Deliver"%string) then
    raise_if (bool_decide (tsubcode ∉ deliver_subcodes))
  else Ok tt.

Definition check_param (buysell openclose callput : string) : result unit :=
  _ ← raise_if (bool_decide (buysell ∉ ["nan"; "Buy"; "Sell"]%string));
  _ ← raise_if (bool_decide (openclose ∉ ["nan"; "Open"; "Close"]%string));
  raise_if (bool_decide (callput ∉ ["nan"; "C"; "P"]%string)).

(** [a != b] on two cells of a text column. *)
Definition cell_ne (a b : option string) : bool :=
  match a, b with
  | Some x, Some y => bool_decide (x ≠ y)
  | _, _ => true
  end.

(** Lines 177-181: a quantity that is not missing must be integral. *)
Definition int_quantity (quantity : option Q) : result (option Z) :=
  match quantity with
  | None => Ok None
  | Some x =>
      _ ← raise_if (negb (Qeq_bool (inject_Z (int_of x)) x));
      Ok (Some (int_of x))
  end.

(** The sums of the report. *)
Record Sums : Set := mkSums {
  total_fees : Q;
  total : Q;
  interest_paid : Q;
  interest_recv : Q;
  fee_adjustments : Q;
  dividends : Q;
  withholding_tax : Q;
  withdrawal : Q
}.

Definition add_fees (fees amount : Q) (s : Sums) : Sums :=
  mkSums (total_fees s + fees) (total s + (amount - fees)) (interest_paid s)
    (interest_recv s) (fee_adjustments s) (dividends s) (withholding_tax s) (withdrawal s).

Definition add_interest (amount : Q) (s : Sums) : Sums :=
  if Qle_bool amount 0 then
    mkSums (total_fees s) (total s) (interest_paid s + amount) (interest_recv s)
      (fee_adjustments s) (dividends s) (withholding_tax s) (withdrawal s)
  else
    mkSums (total_fees s) (total s) (interest_paid s) (interest_recv s + amount)
      (fee_adjustments s) (dividends s) (withholding_tax s) (withdrawal s).

Definition add_dividend (amount : Q) (s : Sums) : Sums :=
  if Qle_bool amount 0 then
    mkSums (total_fees s) (total s) (interest_paid s) (interest_recv s)
      (fee_adjustments s) (dividends s) (withholding_tax s + amount) (withdrawal s)
  else
    mkSums (total_fees s) (total s) (interest_paid s) (interest_recv s)
      (fee_adjustments s) (dividends s + amount) (withholding_tax s) (withdrawal s).

Definition add_fee_adjustment (amount : Q) (s : Sums) : Sums :=
  mkSums (total_fees s + amount) (total s) (interest_paid s) (interest_recv s)
    (fee_adjustments s + amount) (dividends s) (withholding_tax s) (withdrawal s).

Definition add_withdrawal (amount : Q) (s : Sums) : Sums :=
  mkSums (total_fees s) (total s) (interest_paid s) (interest_recv s)
    (fee_adjustments s) (dividends s) (withholding_tax s) (withdrawal s + amount).

(** Lines 191-240: the branch of a ['Money Movement'] row.  The tests
    [amount > .0] are written as [amount <= 0] with the branches swapped. *)
Definition money_movement (s : Sums) (tsubcode description : string)
    (amount fees : Q) : result Sums :=
  if bool_decide (tsubcode = "Transfer"%string) then Ok s
  else if bool_decide (tsubcode ∈ ["Deposit"; "Credit Interest"]%string) then
    let s := if bool_decide (description = "INTEREST ON CREDIT BALANCE"%string)
             then add_interest amount s else add_dividend amount s in
    _ ← raise_if (negb (Qeq_bool fees 0));
    Ok s
  else if bool_decide (tsubcode = "Balance Adjustment"%string) then
    _ ← raise_if (negb (Qeq_bool fees 0));
    Ok (add_fee_adjustment amount s)
  else if bool_decide (tsubcode = "Fee"%string) then
    _ ← raise_if (Qle_bool 0 amount);
    _ ← raise_if (negb (Qeq_bool fees 0));
    Ok (add_fee_adjustment amount s)
  else if bool_decide (tsubcode = "Withdrawal"%string) then
    _ ← raise_if (Qle_bool 0 amount);
    _ ← raise_if (negb (Qeq_bool fees 0));
    Ok (add_withdrawal amount s)
  else if bool_decide (tsubcode = "Dividend"%string) then
    _ ← raise_if (negb (Qeq_bool fees 0));
    Ok (add_dividend amount s)
  else Ok s.

(** What the loop carries from row to row. *)
Record Run : Type := mkRun {
  run_ledger : State;
  run_sums : Sums;
  check_account_ref : option (option string)   (* [None] is Python's [None] *)
}.

Definition init_run : Run :=
  mkRun (mkState ∅ 0 0) (mkSums 0 0 0 0 0 0 0 0) None.

Section CheckBody.
Variable strftime_expire : string → result string.
Variable str_float : Q → string.

(** The locals of the [else:] branch for the row, with the given quantity. *)
Definition row_of (w : Csv) (quantity : Z) (price : Q) : Row :=
  mkRow (wk_tsubcode w) (wk_symbol w) (wk_buysell w) quantity (wk_expire w)
    (default 0%Q (wk_strike w)) (wk_callput w) price (wk_fees w) (wk_amount w).

(** Lines 242-262 for a row whose quantity is missing, the float NaN.  The
    asset key and the look into the ledger do not read the quantity.  The
    amount check sees the NaN [check_amount]: [math.isclose] is false on it,
    and for a closing subcode only the amount is tested.  The division and
    [fifo_add] compute with NaN without raising, and ['%5d' % quantity] at
    line 262 raises [ValueError]. *)
Definition nan_quantity_row (fifos : gmap string (list Lot)) (w : Csv) (price : Q)
    : result State :=
  let r := row_of w 0 price in
  '(asset, _, _) ← asset_key strftime_expire str_float r;
  _ ← signed_quantity fifos r asset;
  _ ← (if bool_decide (wk_tsubcode w ∉ closing_subcodes) then Raise RuntimeError
       else raise_if (negb (Qeq_bool (wk_amount w) 0)));
  Raise ValueError.

(** Lines 242-266.  On an option row with a missing strike either [strptime]
    or [int(strike)] raises [ValueError]. *)
Definition trade_branch (st : State) (w : Csv) (quantity : option Z) (price : Q)
    : result State :=
  if bool_decide (wk_expire w ≠ "nan"%string) && bool_decide (wk_strike w = None) then
    Raise ValueError
  else
    match quantity with
    | Some quantity => check_row strftime_expire str_float st (row_of w quantity price)
    | None => nan_quantity_row (st_fifos st) w price
    end.

(** Lines 159-266: the body of the loop for one row.  [cur_year] is only
    assigned and is left out, as is the printing. *)
Definition check_body (st : Run) (w : Csv) : result Run :=
  _ ← check_tcode (wk_tcode w) (wk_tsubcode w) (wk_description w);
  _ ← check_param (wk_buysell w) (wk_openclose w) (wk_callput w);
  let ref :=
    match check_account_ref st with
    | None => wk_account_ref w
    | Some ref => ref
    end in
  _ ← raise_if (cell_ne (wk_account_ref w) ref);
  let sums := add_fees (wk_fees w) (wk_amount w) (run_sums st) in
  quantity ← int_quantity (wk_quantity w);
  let price := default 0%Q (wk_price w) in
  _ ← raise_if (negb (Qle_bool 0 price));
  if bool_decide (wk_tcode w = "Money Movement"%string) then
    sums ← money_movement sums (wk_tsubcode w) (wk_description w) (wk_amount w) (wk_fees w);
    Ok (mkRun (run_ledger st) sums (Some ref))
  else
    ledger ← trade_branch (run_ledger st) w quantity price;
    Ok (mkRun ledger sums (Some ref)).

Fixpoint check_loop (st : Run) (rows : list Csv) : result Run :=
  match rows with
  | [] => Ok st
  | w :: rows => st ← check_body st w; check_loop st rows
  end.

(** [check(wk, year)] up to the report: the rows are visited from the last
    one of the file to the first. *)
Definition check (wk : list Csv) : result Run :=
  check_loop init_run (reverse wk).
End CheckBody.

(** Sum of [amount - fees] over rows. *)
Definition cash_flow (rows : list Csv) : Q :=
  foldr (λ w acc, (wk_amount w - wk_fees w) + acc)%Q 0%Q rows.

(** The sums that only grow and the sums that only fall. *)
Definition sums_signed (s : Sums) : Prop :=
  (0 <= dividends s)%Q ∧ (0 <= interest_recv s)%Q ∧
  (withholding_tax s <= 0)%Q ∧ (interest_paid s <= 0)%Q ∧ (withdrawal s <= 0)%Q.

(** An instance of the date conversion for the examples: it agrees with
    [strptime]/[strftime] on zero-padded dates [MM/DD/YYYY]. *)
Definition strftime_padded (s : string) : result string :=
  if bool_decide (String.length s = 10%nat ∧ String.substring 2 1 s = "/"%string
                  ∧ String.substring 5 1 s = "/"%string)
  then Ok (String.substring 8 2 s +:+ "-" +:+ String.substring 0 2 s
           +:+ "-" +:+ String.substring 3 2 s)
  else Raise ValueError.

(** An instance of the strike format for the examples: it agrees with
    ['%s' % strike] on the strikes [n + 0.5] with [n] a natural number. *)
Definition str_half (x : Q) : string := pretty (int_of x) +:+ ".5".

(** A small file for the examples, newest row first: a deposit, a purchase
    of ten shares, a dividend and the sale of the shares. *)
Definition example_wk : list Csv :=
  [ mkCsv "Trade" "Sell to Close" "AAPL" "Sell" "Close" (Some 10%Q) "nan" None "nan"
      (Some 120%Q) 1 1200 "Sold 10 AAPL @ 120.00" (Some "5WT00001"%string);
    mkCsv "Money Movement" "Dividend" "AAPL" "nan" "nan" None "nan" None "nan"
      None 0 5 "APPLE INC" (Some "5WT00001"%string);
    mkCsv "Trade" "Buy to Open" "AAPL" "Buy" "Open" (Some 10%Q) "nan" None "nan"
      (Some 100%Q) 1 (-1000) "Bought 10 AAPL @ 100.00" (Some "5WT00001"%string);
    mkCsv "Money Movement" "Deposit" "nan" "nan" "nan" None "nan" None "nan"
      None 0 2000 "ACH DEPOSIT" (Some "5WT00001"%string) ].

(** ** Examples: the testable properties of the ledger *)

Example fifo_add_open :
  fifo_add ∅ 5 100 "AAPL" = Ok (0%Q, {[ "AAPL"%string := [mkLot 100 5] ]}).
Proof. vm_compute. reflexivity. Qed.

Example fifo_add_full_close :
  fifo_add {[ "AAPL"%string := [mkLot 100 10] ]} (-10) 120 "AAPL" = Ok (200%Q, ∅).
Proof. vm_compute. reflexivity. Qed.

Example fifo_add_partial_close :
  fifo_add {[ "AAPL"%string := [mkLot 100 10] ]} (-4) 110 "AAPL"
  = Ok (40%Q, {[ "AAPL"%string := [mkLot 100 6] ]}).
Proof. vm_compute. reflexivity. Qed.

Example fifo_add_over_close :
  fifo_add {[ "AAPL"%string := [mkLot 100 5] ]} (-8) 90 "AAPL"
  = Ok ((-50)%Q, {[ "AAPL"%string := [mkLot 90 (-3)] ]}).
Proof. vm_compute. reflexivity. Qed.

Example fifo_add_same_direction :
  fifo_add {[ "AAPL"%string := [mkLot 100 5] ]} 3 110 "AAPL"
  = Ok (0%Q, {[ "AAPL"%string := [mkLot 100 5; mkLot 110 3] ]}).
Proof. vm_compute. reflexivity. Qed.

(** ** [fifo_add] in terms of its loop *)

Lemma fifo_add_unfold fifos quantity price asset :
  fifo_add fifos quantity price asset
  = Ok (fifo_add_outcome fifos price asset
          (fifo_loop (default [] (fifos !! asset)) quantity price 0)).
Proof.
  unfold fifo_add, getitem, delitem.
  destruct (fifos !! asset) as [fifo|] eqn:Hget; cbn.
  - rewrite Hget; cbn.
    destruct (fifo_loop fifo quantity price 0) as [pnl fifo' [|]|pnl q' fifo']; cbn;
      try reflexivity.
    rewrite lookup_insert_eq; cbn. by rewrite delete_insert_eq.
  - rewrite lookup_insert_eq; cbn. by rewrite insert_insert_eq.
Qed.

Lemma sign_cases x : (0 ≤ x ∧ sign x = 1) ∨ (x < 0 ∧ sign x = -1).
Proof. unfold sign. destruct (Z.leb_spec 0 x); [left | right]; done. Qed.

Lemma sign_eqb_iff x y : (sign x =? sign y) = true ↔ (0 ≤ x ↔ 0 ≤ y).
Proof.
  rewrite Z.eqb_eq.
  destruct (sign_cases x) as [[? ->]|[? ->]], (sign_cases y) as [[? ->]|[? ->]];
    split; intros; try done; lia.
Qed.

(** ** C1 *)

(** C1. FIFO matching is oldest-first: with no entry for asset [a], after
    [+5 @ 100] and [+5 @ 200] the queue holds the two lots in arrival order,
    and [-5 @ 150] is matched against the lot at price 100: it returns the
    realized PnL 5*(150-100) = 250 and leaves the single lot {200, +5}. *)
Theorem fifo_oldest_first (fifos : gmap string (list Lot)) (a : string) :
  fifos !! a = None →
  ∃ f1 f2 f3 p1 p2,
    fifo_add fifos 5 100 a = Ok (p1, f1) ∧
    fifo_add f1 5 200 a = Ok (p2, f2) ∧
    f2 !! a = Some [mkLot 100 5; mkLot 200 5] ∧
    fifo_add f2 (-5) 150 a = Ok (250%Q, f3) ∧
    f3 !! a = Some [mkLot 200 5].
Proof.
  intros Hnone.
  eexists _, _, _, _, _.
  split; [|split; [|split; [|split]]].
  - rewrite fifo_add_unfold, Hnone. cbn. reflexivity.
  - rewrite fifo_add_unfold, lookup_insert_eq. cbn. reflexivity.
  - by rewrite lookup_insert_eq.
  - rewrite fifo_add_unfold, lookup_insert_eq. vm_compute fifo_loop. cbn. reflexivity.
  - by rewrite lookup_insert_eq.
Qed.

Lemma fifo_oldest_first_witness :
  (∅ : gmap string (list Lot)) !! "SPY"%string = None ∧
  ∃ f1 f2 f3 p1 p2,
    fifo_add ∅ 5 100 "SPY" = Ok (p1, f1) ∧
    fifo_add f1 5 200 "SPY" = Ok (p2, f2) ∧
    f2 !! "SPY"%string = Some [mkLot 100 5; mkLot 200 5] ∧
    fifo_add f2 (-5) 150 "SPY" = Ok (250%Q, f3) ∧
    f3 !! "SPY"%string = Some [mkLot 200 5].
Proof.
  split; [reflexivity | apply (fifo_oldest_first ∅ "SPY"); reflexivity].
Defined.

(** ** C2 *)

(** C2 (as stated, refuted). On the empty ledger a call with quantity 0
    creates the asset key and appends the lot {1, 0}: the ledger changes. *)
Lemma zero_quantity_changes_ledger :
  fifo_add ∅ 0 1 "SPY" = Ok (0%Q, {[ "SPY"%string := [mkLot 1 0] ]}) ∧
  ({[ "SPY"%string := [mkLot 1 0] ]} : gmap string (list Lot)) ≠ ∅.
Proof.
  split; [vm_compute; reflexivity |].
  intros H. apply (f_equal (lookup "SPY"%string)) in H.
  rewrite lookup_singleton_eq, lookup_empty in H. discriminate.
Qed.

(** C2 (amended). A call with quantity 0 always returns a realized PnL equal
    to 0.  It leaves the ledger map unchanged when the front lot of the
    asset's queue is short; otherwise ([sign(0)] is [1], the sign of a long
    lot) it appends the lot {price, 0} to the asset's queue, creating the key
    when it is absent. *)
Theorem zero_quantity_call (fifos : gmap string (list Lot)) (a : string) (p : Q) :
  ∃ pnl fifos',
    fifo_add fifos 0 p a = Ok (pnl, fifos') ∧
    (pnl == 0)%Q ∧
    fifos' = if front_is_short fifos a then fifos
             else <[a := default [] (fifos !! a) ++ [mkLot p 0]]> fifos.
Proof.
  rewrite fifo_add_unfold. unfold front_is_short.
  destruct (fifos !! a) as [[|[fp fq] rest]|] eqn:Hget; cbn -[Z.abs sign].
  - eexists _, _. split; [reflexivity|]. split; reflexivity.
  - destruct (Z.ltb_spec fq 0) as [Hneg|Hpos].
    + replace (sign fq =? sign 0) with false
        by (symmetry; apply not_true_iff_false; rewrite sign_eqb_iff; lia).
      replace (Z.abs fq >=? Z.abs 0) with true by (symmetry; apply Z.geb_le; cbn; lia).
      replace (fq + 0 =? 0) with false by (symmetry; apply Z.eqb_neq; lia).
      cbn. eexists _, _. split; [reflexivity|]. split.
      * ring.
      * rewrite Z.add_0_r. by apply insert_id.
    + replace (sign fq =? sign 0) with true
        by (symmetry; rewrite sign_eqb_iff; lia).
      cbn. eexists _, _. split; [reflexivity|]. split; reflexivity.
  - eexists _, _. split; [reflexivity|]. split; reflexivity.
Qed.

(** ** C6 *)

(** The absorbing branch (lines 115-122), entered with any accumulated PnL. *)
Lemma fifo_loop_absorbs front rest q p pnl :
  sign (lot_quantity front) ≠ sign q →
  Z.abs q ≤ Z.abs (lot_quantity front) →
  fifo_loop (front :: rest) q p pnl
  = Returned (pnl + inject_Z q * (lot_price front - p))%Q
      (if decide (lot_quantity front + q = 0) then rest
       else mkLot (lot_price front) (lot_quantity front + q) :: rest)
      (bool_decide (lot_quantity front + q = 0 ∧ rest = [])).
Proof.
  intros Hsign Habs. cbn -[Z.abs sign].
  replace (sign (lot_quantity front) =? sign q) with false
    by (symmetry; by apply Z.eqb_neq).
  replace (Z.abs (lot_quantity front) >=? Z.abs q) with true
    by (symmetry; apply Z.geb_le; lia).
  destruct (Z.eqb_spec (lot_quantity front + q) 0) as [Hz|Hz].
  - rewrite decide_True by done. f_equal.
    destruct rest; cbn; symmetry.
    + by apply bool_decide_eq_true_2.
    + apply bool_decide_eq_false_2. by intros [_ ?].
  - rewrite decide_False by done. f_equal. symmetry.
    apply bool_decide_eq_false_2. by intros [? _].
Qed.

(** The iterations that consume the lots of [consumed] leave the loop at the
    lot behind them, with the residual quantity and the PnL accumulated so
    far. *)
Lemma fifo_loop_consumed consumed tail q p pnl :
  consumed_by q consumed →
  ∃ pnl',
    fifo_loop (consumed ++ tail) q p pnl
    = fifo_loop tail (q + queue_quantity consumed) p pnl' ∧
    (pnl' == pnl + consumed_pnl p consumed)%Q.
Proof.
  unfold queue_quantity, consumed_pnl.
  revert q pnl. induction consumed as [|[fp fq] consumed IH]; intros q pnl Hcons.
  - exists pnl. cbn. rewrite Z.add_0_r. split; [reflexivity | ring].
  - destruct Hcons as (Hsign & Habs & Hcons). cbn -[Z.abs sign] in *.
    replace (sign fq =? sign q) with false by (symmetry; by apply Z.eqb_neq).
    replace (Z.abs fq >=? Z.abs q) with false
      by (symmetry; rewrite Z.geb_leb; apply Z.leb_gt; lia).
    destruct (IH (q + fq) (pnl + inject_Z fq * (p - fp))%Q Hcons) as (pnl' & -> & Hpnl).
    exists pnl'. split; [f_equal; lia|]. rewrite Hpnl. ring.
Qed.



(** ** C8 *)

Lemma fifo_add_conv_unfold fifos quantity price asset :
  fifo_add_conv fifos quantity price asset
  = e ← fifo_loop_conv (default [] (fifos !! asset)) quantity price 0;
    Ok (fifo_add_outcome fifos price asset e).
Proof.
  unfold fifo_add_conv, getitem, delitem.
  destruct (fifos !! asset) as [fifo|] eqn:Hget; cbn -[fifo_loop_conv].
  - rewrite Hget; cbn -[fifo_loop_conv].
    destruct (fifo_loop_conv fifo quantity price 0)
      as [[pnl fifo' [|]|pnl q' fifo']|e]; cbn; try reflexivity.
    rewrite lookup_insert_eq; cbn. by rewrite delete_insert_eq.
  - rewrite lookup_insert_eq; cbn. by rewrite insert_insert_eq.
Qed.

Lemma float_of_int_cases n :
  (Z.abs n < float_bound ∧ float_of_int n = Ok (inject_Z n)) ∨
  (float_bound ≤ Z.abs n ∧ float_of_int n = Raise OverflowError).
Proof.
  unfold float_of_int. destruct (Z.ltb_spec (Z.abs n) float_bound); [left | right]; done.
Qed.

(** With its conversions the loop either does what the exact loop does or
    raises [OverflowError]. *)
Lemma fifo_loop_conv_cases fifo q p pnl :
  fifo_loop_conv fifo q p pnl = Ok (fifo_loop fifo q p pnl) ∨
  fifo_loop_conv fifo q p pnl = Raise OverflowError.
Proof.
  revert q pnl. induction fifo as [|[fp fq] rest IH]; intros q pnl; [by left|].
  cbn -[Z.abs sign float_of_int].
  destruct (sign fq =? sign q); [by left|].
  destruct (Z.abs fq >=? Z.abs q).
  - destruct (float_of_int_cases q) as [[_ ->]|[_ ->]]; cbn; [|by right].
    left. by destruct (fq + q =? 0).
  - destruct (float_of_int_cases fq) as [[_ ->]|[_ ->]]; cbn; [|by right].
    apply IH.
Qed.

(** Within the range of a float no conversion fails. *)
Lemma fifo_loop_conv_in_range fifo q p pnl :
  in_float_range fifo q →
  fifo_loop_conv fifo q p pnl = Ok (fifo_loop fifo q p pnl).
Proof.
  unfold in_float_range.
  revert q pnl. induction fifo as [|[fp fq] rest IH]; intros q pnl [Hq Hall]; [done|].
  apply Forall_cons in Hall as [Hfq Hrest]. cbn in Hfq.
  cbn -[Z.abs sign float_of_int].
  destruct (sign fq =? sign q) eqn:Hsign; [done|].
  destruct (Z.abs fq >=? Z.abs q) eqn:Habs.
  - destruct (float_of_int_cases q) as [[_ ->]|[? _]]; [|lia]. cbn.
    by destruct (fq + q =? 0).
  - destruct (float_of_int_cases fq) as [[_ ->]|[? _]]; [|lia]. cbn.
    apply IH. split; [|done].
    apply not_true_iff_false in Hsign. rewrite sign_eqb_iff in Hsign.
    rewrite Z.geb_leb in Habs. apply Z.leb_gt in Habs. lia.
Qed.

(** C8 (as stated, refuted). A quantity of [2**1024] opens a position
    without an error; closing it with [-2**1024] takes the absorbing branch,
    where [quantity * (fifo[0][0] - price)] converts the quantity to a float
    and raises [OverflowError]. *)
Lemma fifo_add_overflows :
  fifo_add_conv ∅ (2 ^ 1024) 1 "SPY"
  = Ok (0%Q, {[ "SPY"%string := [mkLot 1 (2 ^ 1024)] ]}) ∧
  fifo_add_conv {[ "SPY"%string := [mkLot 1 (2 ^ 1024)] ]} (- 2 ^ 1024) 1 "SPY"
  = Raise OverflowError.
Proof. split; vm_compute; reflexivity. Qed.

(** C8 (amended). [fifo_add] always terminates, and neither the lookup
    [fifos[asset]], nor [fifo[0]], nor [del fifos[asset]] can fail: the only
    exception it can raise is the [OverflowError] of an [int * float] product
    whose int is beyond the range of a float.  When the incoming quantity and
    the quantities of the lots of the asset's queue are within that range
    (magnitude below [2**1024 - 2**970]), it returns a PnL and the updated
    ledger map, the ones of the exact loop. *)
Theorem fifo_add_raises_only_overflow (fifos : gmap string (list Lot)) (q : Z)
    (p : Q) (a : string) :
  (∃ pnl fifos',
     fifo_add fifos q p a = Ok (pnl, fifos') ∧
     (fifo_add_conv fifos q p a = Ok (pnl, fifos') ∨
      fifo_add_conv fifos q p a = Raise OverflowError)) ∧
  (in_float_range (default [] (fifos !! a)) q →
   ∃ pnl fifos', fifo_add_conv fifos q p a = Ok (pnl, fifos')).
Proof.
  rewrite fifo_add_conv_unfold, fifo_add_unfold. split.
  - destruct (fifo_add_outcome fifos p a (fifo_loop (default [] (fifos !! a)) q p 0))
      as [pnl fifos'] eqn:Hout.
    exists pnl, fifos'. split; [done|].
    destruct (fifo_loop_conv_cases (default [] (fifos !! a)) q p 0) as [->| ->]; cbn.
    + left. by rewrite Hout.
    + by right.
  - intros Hrange. rewrite (fifo_loop_conv_in_range _ _ _ _ Hrange). cbn.
    destruct (fifo_add_outcome _ _ _ _) as [pnl fifos']. by exists pnl, fifos'.
Qed.

Lemma fifo_add_raises_only_overflow_witness :
  in_float_range [mkLot 100 10] (-4) ∧
  ∃ pnl fifos',
    fifo_add_conv {[ "SPY"%string := [mkLot 100 10] ]} (-4) 110 "SPY" = Ok (pnl, fifos').
Proof.
  assert (Hrange : in_float_range [mkLot 100 10] (-4)).
  { split; [|repeat constructor]; vm_compute; reflexivity. }
  split; [exact Hrange|].
  apply (fifo_add_raises_only_overflow {[ "SPY"%string := [mkLot 100 10] ]} (-4) 110 "SPY").
  exact Hrange.
Defined.

(** ** C9 *)

(** C9. Per-asset independence: a call for [a] leaves the queue of every
    other key as it was, and its PnL and the queue it leaves for [a] are the
    same on every ledger map that holds the same queue for [a]. *)
Theorem fifo_add_frame (fifos : gmap string (list Lot)) (q : Z) (p : Q) (a : string) :
  ∃ pnl fifos',
    fifo_add fifos q p a = Ok (pnl, fifos') ∧
    (∀ b, b ≠ a → fifos' !! b = fifos !! b) ∧
    (∀ other : gmap string (list Lot), other !! a = fifos !! a →
       ∃ other', fifo_add other q p a = Ok (pnl, other') ∧ other' !! a = fifos' !! a).
Proof.
  rewrite fifo_add_unfold.
  destruct (fifo_loop (default [] (fifos !! a)) q p 0)
    as [pnl fifo' deleted|pnl q' fifo'] eqn:Hloop; cbn.
  - eexists _, _. split; [reflexivity|]. split.
    + intros b Hb. destruct deleted.
      * by rewrite lookup_delete_ne.
      * by rewrite lookup_insert_ne.
    + intros other Hsame. rewrite fifo_add_unfold, Hsame, Hloop. cbn.
      eexists. split; [reflexivity|].
      destruct deleted; by rewrite ?lookup_delete_eq, ?lookup_insert_eq.
  - eexists _, _. split; [reflexivity|]. split.
    + intros b Hb. by rewrite lookup_insert_ne.
    + intros other Hsame. rewrite fifo_add_unfold, Hsame, Hloop. cbn.
      eexists. split; [reflexivity|]. by rewrite !lookup_insert_eq.
Qed.

(** ** The loop, one iteration at a time *)

Ltac bool_facts :=
  repeat match goal with
  | H : (sign _ =? sign _) = true |- _ => apply sign_eqb_iff in H
  | H : (sign _ =? sign _) = false |- _ =>
      apply not_true_iff_false in H; rewrite sign_eqb_iff in H
  | H : (_ >=? _) = true |- _ => apply Z.geb_le in H
  | H : (_ >=? _) = false |- _ => rewrite Z.geb_leb in H; apply Z.leb_gt in H
  | H : (_ =? _) = true |- _ => apply Z.eqb_eq in H
  | H : (_ =? _) = false |- _ => apply Z.eqb_neq in H
  end.

(** Case analysis on the three tests of one iteration on the front lot with
    quantity [fq], for the incoming quantity [q]. *)
Ltac loop_cases fq q :=
  cbn -[Z.abs sign];
  destruct (sign fq =? sign q) eqn:Hsign;
    [| destruct (Z.abs fq >=? Z.abs q) eqn:Habs;
       [destruct (fq + q =? 0) eqn:Hzero |]];
  bool_facts; cbn -[Z.abs sign].

Lemma one_sided_iff fifo : lots_nonzero fifo ∧ lots_same_sign fifo ↔ one_sided fifo.
Proof.
  unfold lots_nonzero, lots_same_sign, one_sided, all_long, all_short. split.
  - intros [Hnz Hsame]. destruct fifo as [|front rest]; [left; constructor|].
    assert (Hfront : lot_quantity front ≠ 0) by (by inversion Hnz).
    destruct (Z.lt_total 0 (lot_quantity front)) as [Hpos|[Hz|Hneg]]; [left| lia |right];
      apply Forall_forall; intros lot Hin;
      specialize (Hsame front lot (list_elem_of_here _ _) Hin); lia.
  - intros [Hall|Hall]; split.
    + eapply Forall_impl; [exact Hall|]. cbn; lia.
    + intros l1 l2 H1 H2. rewrite Forall_forall in Hall.
      pose proof (Hall _ H1). pose proof (Hall _ H2). lia.
    + eapply Forall_impl; [exact Hall|]. cbn; lia.
    + intros l1 l2 H1 H2. rewrite Forall_forall in Hall.
      pose proof (Hall _ H1). pose proof (Hall _ H2). lia.
Qed.

(** The residual quantity with which the loop is left has the sign of the
    incoming quantity. *)
Lemma fifo_loop_residual fifo q p pnl pnl' q' fifo' :
  fifo_loop fifo q p pnl = Completed pnl' q' fifo' →
  q ≠ 0 → Z.sgn q' = Z.sgn q.
Proof.
  revert q pnl. induction fifo as [|[fp fq] rest IH]; intros q pnl Hloop Hq.
  - cbn in Hloop. by inversion Hloop.
  - revert Hloop. loop_cases fq q; intros Hloop; try discriminate.
    + by inversion Hloop.
    + apply IH in Hloop; lia.
Qed.

(** The loop keeps a queue on one side, and a lot appended after it is on
    that side too. *)
Lemma fifo_loop_one_sided fifo q p pnl :
  q ≠ 0 → one_sided fifo →
  match fifo_loop fifo q p pnl with
  | Returned _ fifo' _ => one_sided fifo'
  | Completed _ q' fifo' => one_sided (fifo' ++ [mkLot p q'])
  end.
Proof.
  unfold one_sided, all_long, all_short.
  revert q pnl. induction fifo as [|[fp fq] rest IH]; intros q pnl Hq Hside.
  - cbn. rewrite !Forall_singleton; cbn. lia.
  - rewrite !Forall_cons in Hside; cbn in Hside.
    loop_cases fq q.
    + rewrite !Forall_cons, !Forall_app, !Forall_singleton; cbn.
      destruct Hside as [[? ?]|[? ?]]; [left | right]; (split; [lia | split; [done | lia]]).
    + destruct Hside as [[? ?]|[? ?]]; [by left | by right].
    + rewrite !Forall_cons; cbn.
      destruct Hside as [[? ?]|[? ?]]; [left | right]; (split; [lia | done]).
    + apply IH; [lia|]. destruct Hside as [[? ?]|[? ?]]; [by left | by right].
Qed.

(** [del fifos[asset]] runs exactly when the loop returns with an empty
    queue. *)
Lemma fifo_loop_deleted fifo q p pnl pnl' fifo' deleted :
  fifo_loop fifo q p pnl = Returned pnl' fifo' deleted →
  deleted = true ↔ fifo' = [].
Proof.
  revert q pnl. induction fifo as [|[fp fq] rest IH]; intros q pnl; [done|].
  loop_cases fq q; intros Hloop; try discriminate.
  - inversion Hloop; subst. destruct fifo'; cbn; split; intros; done.
  - inversion Hloop; subst. split; intros; done.
  - by eapply IH.
Qed.

Lemma queue_quantity_app fifo lot :
  queue_quantity (fifo ++ [lot]) = queue_quantity fifo + lot_quantity lot.
Proof. unfold queue_quantity. induction fifo as [|l fifo IH]; cbn in *; lia. Qed.

(** The loop conserves quantity. *)
Lemma fifo_loop_quantity fifo q p pnl :
  match fifo_loop fifo q p pnl with
  | Returned _ fifo' _ => queue_quantity fifo' = queue_quantity fifo + q
  | Completed _ q' fifo' => queue_quantity fifo' + q' = queue_quantity fifo + q
  end.
Proof.
  unfold queue_quantity.
  revert q pnl. induction fifo as [|[fp fq] rest IH]; intros q pnl; [done|].
  loop_cases fq q; cbn in *; try lia.
  specialize (IH (q + fq) (pnl + inject_Z fq * (p - fp))%Q).
  destruct (fifo_loop rest _ _ _); cbn in *; lia.
Qed.

(** ** C10 *)

(** C10. Within one call the residual quantity keeps its sign: the
    consume-and-continue branch (both tests of the iteration fail) is taken
    only for a front lot strictly smaller in magnitude than the residual, and
    continues with a residual of the same sign; so for a non-zero incoming
    quantity the loop is never left with a zero residual, and the lot
    appended after the loop has the sign of the incoming quantity. *)
Theorem residual_keeps_sign (q : Z) (p : Q) :
  q ≠ 0 →
  (∀ front rest pnl,
     (sign (lot_quantity front) =? sign q) = false →
     (Z.abs (lot_quantity front) >=? Z.abs q) = false →
     fifo_loop (front :: rest) q p pnl
     = fifo_loop rest (q + lot_quantity front) p
         (pnl + inject_Z (lot_quantity front) * (p - lot_price front))%Q ∧
     Z.abs (lot_quantity front) < Z.abs q ∧
     Z.sgn (q + lot_quantity front) = Z.sgn q) ∧
  (∀ fifo pnl pnl' q' fifo',
     fifo_loop fifo q p pnl = Completed pnl' q' fifo' →
     q' ≠ 0 ∧ Z.sgn q' = Z.sgn q) ∧
  (∀ (fifos : gmap string (list Lot)) a pnl' q' fifo',
     fifo_loop (default [] (fifos !! a)) q p 0 = Completed pnl' q' fifo' →
     fifo_add fifos q p a = Ok (pnl', <[a := fifo' ++ [mkLot p q']]> fifos) ∧
     Z.sgn q' = Z.sgn q).
Proof.
  intros Hq. split; [|split].
  - intros [fp fq] rest pnl Hsign Habs. cbn -[Z.abs sign] in *.
    rewrite Hsign, Habs. split; [reflexivity|].
    bool_facts. lia.
  - intros fifo pnl pnl' q' fifo' Hloop.
    pose proof (fifo_loop_residual _ _ _ _ _ _ _ Hloop Hq). lia.
  - intros fifos a pnl' q' fifo' Hloop.
    rewrite fifo_add_unfold, Hloop. cbn. split; [reflexivity|].
    by eapply fifo_loop_residual.
Qed.

Lemma residual_keeps_sign_witness :
  fifo_add {[ "SPY"%string := [mkLot 100 5; mkLot 101 2] ]} (-8) 90 "SPY"
  = Ok ((-72)%Q, {[ "SPY"%string := [mkLot 90 (-1)] ]}).
Proof.
  assert (Hq : -8 ≠ 0) by discriminate.
  destruct (residual_keeps_sign (-8) 90 Hq) as (_ & _ & Hadd).
  destruct (Hadd {[ "SPY"%string := [mkLot 100 5; mkLot 101 2] ]} "SPY"%string
              (-72)%Q (-1) []) as [Heq _].
  - vm_compute. reflexivity.
  - rewrite Heq. vm_compute. reflexivity.
Defined.

(** ** One call on the ledger map *)

Lemma fifo_add_one_sided fifos q p a pnl fifos' :
  q ≠ 0 →
  (∀ b fifo, fifos !! b = Some fifo → one_sided fifo) →
  fifo_add fifos q p a = Ok (pnl, fifos') →
  ∀ b fifo, fifos' !! b = Some fifo → one_sided fifo.
Proof.
  intros Hq Hinv. rewrite fifo_add_unfold. intros Hadd b fifo.
  assert (Hqueue : one_sided (default [] (fifos !! a))).
  { destruct (fifos !! a) as [fifo0|] eqn:Hget; cbn; [by eapply Hinv|].
    left. constructor. }
  pose proof (fifo_loop_one_sided _ q p 0 Hq Hqueue) as Hloop.
  destruct (fifo_loop (default [] (fifos !! a)) q p 0) as [pnl0 fifo0 deleted|pnl0 q0 fifo0];
    cbn in Hadd; inversion Hadd; subst; clear Hadd.
  - destruct deleted.
    + rewrite lookup_delete. case_decide; [done | apply Hinv].
    + rewrite lookup_insert. case_decide; [by intros [= <-] | apply Hinv].
  - rewrite lookup_insert. case_decide; [by intros [= <-] | apply Hinv].
Qed.

Lemma fifo_add_no_empty_queue fifos q p a pnl fifos' :
  no_empty_queue fifos →
  fifo_add fifos q p a = Ok (pnl, fifos') →
  no_empty_queue fifos'.
Proof.
  intros Hinv. rewrite fifo_add_unfold. intros Hadd b.
  destruct (fifo_loop (default [] (fifos !! a)) q p 0)
    as [pnl0 fifo0 deleted|pnl0 q0 fifo0] eqn:Hloop;
    cbn in Hadd; inversion Hadd; subst; clear Hadd.
  - apply fifo_loop_deleted in Hloop. destruct deleted.
    + rewrite lookup_delete. case_decide; [done | apply Hinv].
    + rewrite lookup_insert. case_decide; [| apply Hinv].
      intros [= ->]. by apply proj2 in Hloop; specialize (Hloop eq_refl).
  - rewrite lookup_insert. case_decide; [| apply Hinv].
    intros [= Happ]. by destruct fifo0.
Qed.

Lemma fifo_add_net_quantity fifos q p a pnl fifos' :
  fifo_add fifos q p a = Ok (pnl, fifos') →
  ∀ b, net_quantity fifos' b
       = if decide (a = b) then net_quantity fifos a + q else net_quantity fifos b.
Proof.
  rewrite fifo_add_unfold. intros Hadd b. unfold net_quantity.
  pose proof (fifo_loop_quantity (default [] (fifos !! a)) q p 0) as Hsum.
  destruct (fifo_loop (default [] (fifos !! a)) q p 0)
    as [pnl0 fifo0 deleted|pnl0 q0 fifo0] eqn:Hloop;
    cbn in Hadd; inversion Hadd; subst; clear Hadd.
  - apply fifo_loop_deleted in Hloop. destruct deleted.
    + rewrite lookup_delete. case_decide; [|done]. cbn.
      assert (fifo0 = []) as -> by (by apply Hloop). by rewrite <- Hsum.
    + rewrite lookup_insert. by case_decide.
  - rewrite lookup_insert. case_decide; [|done]. cbn.
    rewrite queue_quantity_app. cbn. lia.
Qed.

(** ** Sequences of calls *)

Lemma fifo_adds_total fifos evs : ∃ fifos', fifo_adds fifos evs = Ok fifos'.
Proof.
  revert fifos. induction evs as [|ev evs IH]; intros fifos; cbn; [by eexists|].
  rewrite fifo_add_unfold. destruct (fifo_add_outcome _ _ _ _) as [pnl fifos1]. cbn. apply IH.
Qed.

Lemma fifo_adds_invariants fifos evs fifos' :
  fifo_adds fifos evs = Ok fifos' →
  (no_empty_queue fifos → no_empty_queue fifos') ∧
  (∀ a, net_quantity fifos' a = net_quantity fifos a + traded_quantity a evs) ∧
  (nonzero_trades evs →
   (∀ b fifo, fifos !! b = Some fifo → one_sided fifo) →
   ∀ b fifo, fifos' !! b = Some fifo → one_sided fifo).
Proof.
  revert fifos. induction evs as [|ev evs IH]; intros fifos; cbn.
  - intros [= ->]. split; [done|]. split; [intros; lia | done].
  - destruct (fifo_add fifos (trade_quantity ev) (trade_price ev) (trade_asset ev))
      as [[pnl fifos1]|e] eqn:Hadd; cbn; [|done].
    intros Hrun. destruct (IH _ Hrun) as (IH1 & IH2 & IH3).
    split; [|split].
    + intros Hne. apply IH1. by eapply fifo_add_no_empty_queue.
    + intros a. rewrite IH2, (fifo_add_net_quantity _ _ _ _ _ _ Hadd).
      unfold traded_quantity. repeat case_decide; subst; lia.
    + intros Hnz Hinv. inversion Hnz; subst.
      apply IH3; [done|]. by eapply fifo_add_one_sided.
Qed.

Lemma all_long_quantity fifo : all_long fifo → fifo ≠ [] → 0 < queue_quantity fifo.
Proof.
  unfold all_long, queue_quantity.
  induction fifo as [|lot fifo IH]; [done|].
  intros [Hlot Hrest]%Forall_cons _. cbn in *.
  destruct fifo as [|lot' fifo]; [cbn; lia|].
  specialize (IH Hrest ltac:(done)). cbn in *. lia.
Qed.

Lemma all_short_quantity fifo : all_short fifo → fifo ≠ [] → queue_quantity fifo < 0.
Proof.
  unfold all_short, queue_quantity.
  induction fifo as [|lot fifo IH]; [done|].
  intros [Hlot Hrest]%Forall_cons _. cbn in *.
  destruct fifo as [|lot' fifo]; [cbn; lia|].
  specialize (IH Hrest ltac:(done)). cbn in *. lia.
Qed.

Lemma one_sided_net_nonzero fifo : one_sided fifo → fifo ≠ [] → queue_quantity fifo ≠ 0.
Proof.
  intros [Hall|Hall] Hne.
  - pose proof (all_long_quantity _ Hall Hne). lia.
  - pose proof (all_short_quantity _ Hall Hne). lia.
Qed.

(** ** C4 *)

(** C4 (as stated, refuted). A call with quantity 0 on the empty ledger
    leaves a lot of quantity zero in the asset's queue. *)
Lemma zero_lot_reachable :
  ∃ fifos, fifo_adds ∅ [mkTrade "SPY" 0 1] = Ok fifos ∧ ¬ lot_invariant fifos.
Proof.
  exists {[ "SPY"%string := [mkLot 1 0] ]}. split; [vm_compute; reflexivity|].
  intros Hinv. destruct (Hinv "SPY"%string [mkLot 1 0]) as [Hnz _].
  - apply lookup_singleton_eq.
  - unfold lots_nonzero in Hnz. rewrite Forall_singleton in Hnz. by apply Hnz.
Qed.

(** C4 (amended). Lot invariant: in every ledger map reached from the empty
    map by a sequence of calls with non-zero quantities, every lot has a
    non-zero quantity and all lots of one asset have the same sign. *)
Theorem lot_invariant_reachable (evs : list Trade) :
  nonzero_trades evs →
  ∃ fifos, fifo_adds ∅ evs = Ok fifos ∧ lot_invariant fifos.
Proof.
  intros Hnz. destruct (fifo_adds_total ∅ evs) as [fifos Hrun].
  exists fifos. split; [done|].
  destruct (fifo_adds_invariants _ _ _ Hrun) as (_ & _ & Hside).
  intros a fifo Hget. apply one_sided_iff. eapply Hside; [done| |done].
  intros b fifo0. by rewrite lookup_empty.
Qed.

Lemma lot_invariant_reachable_witness :
  nonzero_trades [mkTrade "SPY" 5 100; mkTrade "SPY" (-8) 90] ∧
  ∃ fifos, fifo_adds ∅ [mkTrade "SPY" 5 100; mkTrade "SPY" (-8) 90] = Ok fifos
           ∧ lot_invariant fifos.
Proof.
  assert (Hnz : nonzero_trades [mkTrade "SPY" 5 100; mkTrade "SPY" (-8) 90]).
  { repeat constructor; cbn; discriminate. }
  split; [exact Hnz | exact (lot_invariant_reachable _ Hnz)].
Defined.

(** ** C5 *)

(** C5 (as stated, refuted). After [+5 @ 100], [0 @ 100] and [-5 @ 120] the
    net quantity of the asset is zero, yet its key is still present, with a
    queue that holds the zero lot. *)
Lemma flat_but_present :
  traded_quantity "SPY" [mkTrade "SPY" 5 100; mkTrade "SPY" 0 100; mkTrade "SPY" (-5) 120] = 0 ∧
  ∃ fifos,
    fifo_adds ∅ [mkTrade "SPY" 5 100; mkTrade "SPY" 0 100; mkTrade "SPY" (-5) 120] = Ok fifos ∧
    net_quantity fifos "SPY" = 0 ∧
    fifos !! "SPY"%string = Some [mkLot 100 0].
Proof.
  split; [reflexivity|].
  exists {[ "SPY"%string := [mkLot 100 0] ]}.
  split; [vm_compute; reflexivity|]. split; reflexivity.
Qed.

(** C5 (amended). Starting from the empty ledger map, no asset key is ever
    present with an empty queue; and for every sequence of calls with
    non-zero quantities the asset key is absent exactly when the net quantity
    of the asset (the sum of its events, which is the sum of its open lots)
    is zero. *)
Theorem flat_iff_absent (evs : list Trade) :
  ∃ fifos,
    fifo_adds ∅ evs = Ok fifos ∧
    no_empty_queue fifos ∧
    (∀ a, net_quantity fifos a = traded_quantity a evs) ∧
    (nonzero_trades evs → ∀ a, traded_quantity a evs = 0 ↔ fifos !! a = None).
Proof.
  destruct (fifo_adds_total ∅ evs) as [fifos Hrun].
  exists fifos. split; [done|].
  destruct (fifo_adds_invariants _ _ _ Hrun) as (Hne & Hnet & Hside).
  assert (Hne' : no_empty_queue fifos).
  { apply Hne. intros a. by rewrite lookup_empty. }
  assert (Hnet' : ∀ a, net_quantity fifos a = traded_quantity a evs).
  { intros a. rewrite Hnet. unfold net_quantity. by rewrite lookup_empty. }
  split; [done|]. split; [done|].
  intros Hnz a. rewrite <- Hnet'. unfold net_quantity. split.
  - destruct (fifos !! a) as [fifo|] eqn:Hget; [|done]. cbn. intros Hzero.
    exfalso. eapply (one_sided_net_nonzero fifo); [| |done].
    + eapply Hside; [done| |done]. intros b fifo0. by rewrite lookup_empty.
    + intros ->. by apply (Hne' a).
  - by intros ->.
Qed.

Lemma flat_iff_absent_witness :
  ∃ fifos,
    fifo_adds ∅ [mkTrade "SPY" 5 100; mkTrade "SPY" (-5) 120] = Ok fifos ∧
    fifos !! "SPY"%string = None.
Proof.
  destruct (flat_iff_absent [mkTrade "SPY" 5 100; mkTrade "SPY" (-5) 120])
    as (fifos & Hrun & _ & _ & Hflat).
  exists fifos. split; [exact Hrun|].
  apply Hflat; [repeat constructor; cbn; discriminate | reflexivity].
Defined.

(** ** The processing loop *)

Section CheckFacts.
Variable strftime_expire : string → result string.
Variable str_float : Q → string.

(** [check_row] calls [fifo_add] with the asset, quantity and price that
    [trade_args] computes. *)
Lemma check_row_calls_fifo_add st r st' :
  check_row strftime_expire str_float st r = Ok st' →
  ∃ asset q p cs pnl,
    trade_args strftime_expire str_float (st_fifos st) r = Ok (asset, q, p, cs) ∧
    fifo_add (st_fifos st) q p asset = Ok (pnl, st_fifos st').
Proof.
  unfold check_row.
  destruct (trade_args _ _ _ r) as [[[[asset q] p] cs]|e]; cbn; [|done].
  destruct (fifo_add (st_fifos st) q p asset) as [[pnl fifos']|e] eqn:Hadd; cbn; [|done].
  intros Hst. exists asset, q, p, cs, pnl. split; [done|].
  rewrite Hadd. by destruct cs; inversion Hst.
Qed.

(** The division at line 260 guards the call: [fifo_add] is never called
    with the quantity 0. *)
Lemma trade_args_quantity_nonzero fifos r asset q p cs :
  trade_args strftime_expire str_float fifos r = Ok (asset, q, p, cs) →
  q ≠ 0 ∧ p = Qabs ((amount r - fees r) / inject_Z q).
Proof.
  unfold trade_args.
  destruct (asset_key _ _ r) as [[[asset0 price0] cs0]|e]; cbn; [|done].
  destruct (signed_quantity fifos r asset0) as [q0|e]; cbn; [|done].
  destruct (check_trade _ _ _) as [[]|e]; cbn; [|done].
  destruct (Z.eqb_spec q0 0) as [Hz|Hz]; cbn; [done|].
  intros [= <- <- <- <-]. done.
Qed.

Lemma check_rows_raise st r wk e :
  check_row strftime_expire str_float st r = Raise e →
  check_rows strftime_expire str_float st (r :: wk) = Raise e.
Proof. intros Hrow. cbn. by rewrite Hrow. Qed.
End CheckFacts.

Lemma inject_Z_nonzero q : q ≠ 0 → ¬ (inject_Z q == 0)%Q.
Proof. unfold Qeq; cbn. lia. Qed.

(** ** C3 *)

(** C3 (as stated, refuted). An option bought at the quoted price 1.5 for
    the amount -300 with fees 1: the price passed to [fifo_add] is
    |(-300 - 1) / 2| = 150.5, not 1.5 * 100. *)
Lemma option_price_includes_fees :
  let r := mkRow "Buy to Open" "SPY" "Buy" 2 "01/15/2021" 300 "C" (3 # 2) 1 (-300) in
  expire r ≠ "nan"%string ∧
  trade_args strftime_padded str_half ∅ r
  = Ok ("SPY C300 21-01-15"%string, 2, (301 # 2)%Q, false) ∧
  ¬ (301 # 2 == price r * 100)%Q.
Proof.
  cbn zeta. split; [discriminate|]. split; [vm_compute; reflexivity|].
  vm_compute. discriminate.
Qed.

(** C3 (amended). For every option row (expiration date not missing) that
    reaches the call of [fifo_add], the raw quoted price multiplied by 100 is
    the price of the amount check ([check_trade] compares
    [-(quantity * price * 100)] with the reported amount), and the per-unit
    price passed to [fifo_add] is [|(amount - fees) / quantity|]; this is the
    raw price times 100 when the fees are zero and the amount is exactly
    [-(quantity * price * 100)]. *)
Theorem option_price_passed (strftime_expire : string → result string)
    (str_float : Q → string) (fifos : gmap string (list Lot)) (r : Row)
    (asset : string) (q : Z) (p : Q) (cs : bool) :
  expire r ≠ "nan"%string →
  trade_args strftime_expire str_float fifos r = Ok (asset, q, p, cs) →
  q ≠ 0 ∧
  check_trade (tsubcode r) (- (inject_Z q * (price r * 100)))%Q (amount r) = Ok tt ∧
  p = Qabs ((amount r - fees r) / inject_Z q) ∧
  ((fees r == 0)%Q → (amount r == - (inject_Z q * (price r * 100)))%Q →
   (0 <= price r)%Q → (p == price r * 100)%Q).
Proof.
  intros Hexp Hargs.
  destruct (trade_args_quantity_nonzero _ _ _ _ _ _ _ _ Hargs) as [Hq Hp].
  split; [done|]. split; [|split; [done|]].
  - revert Hargs. unfold trade_args, asset_key.
    rewrite bool_decide_eq_true_2 by done.
    destruct (strftime_expire (expire r)) as [expire'|e]; cbn; [|done].
    destruct (signed_quantity fifos r _) as [q0|e]; cbn; [|done].
    destruct (check_trade _ _ _) as [[]|e] eqn:Hcheck; cbn; [|done].
    destruct (q0 =? 0); cbn; [done|].
    by intros [= _ <- _ _].
  - intros Hfees Hamount Hprice. rewrite Hp, Hfees, Hamount.
    assert (Heq : ((- (inject_Z q * (price r * 100)) - 0) / inject_Z q
                   == - (price r * 100))%Q).
    { field. by apply inject_Z_nonzero. }
    rewrite Heq, Qabs_opp. apply Qabs_pos.
    apply Qmult_le_0_compat; [done | discriminate].
Qed.

Lemma option_price_passed_witness :
  let r := mkRow "Buy to Open" "SPY" "Buy" 2 "01/15/2021" 300 "C" (3 # 2) 0 (-300) in
  trade_args strftime_padded str_half ∅ r
  = Ok ("SPY C300 21-01-15"%string, 2, (300 # 2)%Q, false) ∧
  (300 # 2 == price r * 100)%Q.
Proof.
  cbn zeta.
  assert (Hargs : trade_args strftime_padded str_half ∅
            (mkRow "Buy to Open" "SPY" "Buy" 2 "01/15/2021" 300 "C" (3 # 2) 0 (-300))
          = Ok ("SPY C300 21-01-15"%string, 2, (300 # 2)%Q, false))
    by (vm_compute; reflexivity).
  split; [exact Hargs|].
  refine (proj2 (proj2 (proj2 (option_price_passed _ _ _ _ _ _ _ _ _ Hargs))) _ _ _).
  - discriminate.
  - reflexivity.
  - reflexivity.
  - discriminate.
Defined.

(** ** Long, short and flat positions *)

Lemma front_of_position (fifos : gmap string (list Lot)) (a : string) :
  lot_invariant fifos → no_empty_queue fifos →
  match fifos !! a with
  | None => net_quantity fifos a = 0
  | Some [] => False
  | Some (front :: _) =>
      (0 < lot_quantity front ∧ 0 < net_quantity fifos a) ∨
      (lot_quantity front < 0 ∧ net_quantity fifos a < 0)
  end.
Proof.
  intros Hinv Hne. unfold net_quantity.
  destruct (fifos !! a) as [[|front rest]|] eqn:Hget; cbn -[queue_quantity];
    [by apply (Hne a) | | done].
  destruct (proj1 (one_sided_iff _) (Hinv _ _ Hget)) as [Hall|Hall].
  - left. split; [|by apply all_long_quantity].
    by apply Forall_cons in Hall as [? _].
  - right. split; [|by apply all_short_quantity].
    by apply Forall_cons in Hall as [? _].
Qed.

(** The loop keeps the ledger well formed: every call of [fifo_add] it makes
    has a non-zero quantity. *)
Lemma check_row_ledger (strftime_expire : string → result string)
    (str_float : Q → string) st r st' :
  lot_invariant (st_fifos st) → no_empty_queue (st_fifos st) →
  check_row strftime_expire str_float st r = Ok st' →
  lot_invariant (st_fifos st') ∧ no_empty_queue (st_fifos st').
Proof.
  intros Hinv Hne Hrow.
  destruct (check_row_calls_fifo_add _ _ _ _ _ Hrow) as (asset & q & p & cs & pnl & Hargs & Hadd).
  apply trade_args_quantity_nonzero in Hargs as [Hq _].
  split; [|by eapply fifo_add_no_empty_queue].
  intros b fifo Hget. apply one_sided_iff.
  eapply fifo_add_one_sided; [exact Hq | | exact Hadd | exact Hget].
  intros b0 fifo0 Hget0. apply one_sided_iff. by eapply Hinv.
Qed.

(** ** C7 *)

(** C7. The code against the claim.  The comment at lines 253-255 says that
    the Buy/Sell cell is not set correctly for Expiration, Exercise and
    Assignment rows and that the existing position decides the direction.
    Line 256 nevertheless tests [str(buysell) == 'Sell'] first, for every
    subcode: on an Expiration row whose Buy/Sell cell is ['Sell'] the quantity
    is negated although the position is short, and on the empty ledger (a flat
    position) the row raises nothing and opens a short lot. *)
Lemma sell_row_ignores_position :
  let r := mkRow "Expiration" "SPY" "Sell" 1 "01/15/2021" 300 "C" 0 0 0 in
  let asset := "SPY C300 21-01-15"%string in
  tsubcode r ∈ closing_subcodes ∧
  net_quantity {[ asset := [mkLot 150 (-1)] ]} asset < 0 ∧
  signed_quantity {[ asset := [mkLot 150 (-1)] ]} r asset = Ok (- quantity r) ∧
  net_quantity ∅ asset = 0 ∧
  check_row strftime_padded str_half (mkState ∅ 0 0) r
  = Ok (mkState {[ asset := [mkLot 0 (-1)] ]} 0 0).
Proof.
  cbn zeta. split; [|split; [|split; [|split]]].
  - unfold closing_subcodes. cbn. apply list_elem_of_here.
  - reflexivity.
  - vm_compute. reflexivity.
  - reflexivity.
  - vm_compute. reflexivity.
Qed.

(** The path of line 257 that consults the ledger does what C7 says.  For
    Expiration/Exercise/Assignment rows whose Buy/Sell cell is not ['Sell'],
    on a well-formed ledger: the quantity is negated when the position of the
    asset is long, kept when it is short, and when the asset has no open
    position the lookup raises [KeyError], which ends the run. *)
Lemma closing_direction (fifos : gmap string (list Lot)) (r : Row) (asset : string) :
  lot_invariant fifos → no_empty_queue fifos →
  tsubcode r ∈ closing_subcodes →
  buysell r ≠ "Sell"%string →
  (0 < net_quantity fifos asset → signed_quantity fifos r asset = Ok (- quantity r)) ∧
  (net_quantity fifos asset < 0 → signed_quantity fifos r asset = Ok (quantity r)) ∧
  (net_quantity fifos asset = 0 →
   signed_quantity fifos r asset = Raise KeyError ∧
   ∀ strftime_expire str_float st price_ cs wk,
     st_fifos st = fifos →
     asset_key strftime_expire str_float r = Ok (asset, price_, cs) →
     check_rows strftime_expire str_float st (r :: wk) = Raise KeyError).
Proof.
  intros Hinv Hne Hsub Hbuy.
  pose proof (front_of_position fifos asset Hinv Hne) as Hfront.
  assert (Hsq : signed_quantity fifos r asset
                = negate ← fifos_islong fifos asset;
                  Ok (if negate : bool then - quantity r else quantity r)).
  { unfold signed_quantity.
    by rewrite bool_decide_eq_false_2, bool_decide_eq_true_2 by done. }
  rewrite Hsq. unfold fifos_islong, getitem.
  destruct (fifos !! asset) as [[|front rest]|] eqn:Hget; cbn; [done| |].
  - destruct Hfront as [[Hpos Hnet]|[Hneg Hnet]].
    + replace (0 <? lot_quantity front) with true by (symmetry; by apply Z.ltb_lt).
      split; [done|]. split; intros; lia.
    + replace (0 <? lot_quantity front) with false by (symmetry; apply Z.ltb_ge; lia).
      split; [intros; lia|]. split; [done | intros; lia].
  - split; [intros; lia|]. split; [intros; lia|]. intros _. split; [done|].
    intros strftime_expire str_float st price_ cs wk Hst Hkey.
    apply check_rows_raise. unfold check_row, trade_args.
    rewrite Hst, Hkey. cbn -[signed_quantity].
    rewrite Hsq. unfold fifos_islong, getitem. by rewrite Hget.
Qed.

Lemma closing_direction_witness :
  let r := mkRow "Expiration" "SPY" "nan" 1 "01/15/2021" 300 "C" 0 0 0 in
  let asset := "SPY C300 21-01-15"%string in
  signed_quantity {[ asset := [mkLot 150 1] ]} r asset = Ok (-1) ∧
  signed_quantity {[ asset := [mkLot 150 (-1)] ]} r asset = Ok 1 ∧
  check_rows strftime_padded str_half (mkState ∅ 0 0) [r] = Raise KeyError.
Proof.
  cbn zeta.
  set (r := mkRow "Expiration" "SPY" "nan" 1 "01/15/2021" 300 "C" 0 0 0).
  set (asset := "SPY C300 21-01-15"%string).
  assert (Hinv : ∀ lot, lot_quantity lot ≠ 0 →
            lot_invariant {[ asset := [lot] ]} ∧ no_empty_queue {[ asset := [lot] ]}).
  { intros lot Hlot. split.
    - intros b fifo [_ <-]%lookup_singleton_Some. split.
      + by apply Forall_singleton.
      + by intros l1 l2 ->%list_elem_of_singleton ->%list_elem_of_singleton.
    - intros b [_ [=]]%lookup_singleton_Some. }
  assert (Hsub : tsubcode r ∈ closing_subcodes) by apply list_elem_of_here.
  assert (Hbuy : buysell r ≠ "Sell"%string) by discriminate.
  split; [|split].
  - destruct (Hinv (mkLot 150 1)) as [H1 H2]; [discriminate|].
    apply (closing_direction _ r asset H1 H2 Hsub Hbuy). reflexivity.
  - destruct (Hinv (mkLot 150 (-1))) as [H1 H2]; [discriminate|].
    apply (closing_direction _ r asset H1 H2 Hsub Hbuy). reflexivity.
  - assert (H1 : lot_invariant ∅) by (intros b fifo; by rewrite lookup_empty).
    assert (H2 : no_empty_queue ∅) by (intros b; by rewrite lookup_empty).
    destruct (closing_direction ∅ r asset H1 H2 Hsub Hbuy) as (_ & _ & Hflat).
    destruct (Hflat eq_refl) as [_ Hrun].
    apply (Hrun strftime_padded str_half (mkState ∅ 0 0) 0%Q false []); reflexivity.
Defined.

(** * Further properties of the ledger *)

(** ** Quantity and book value across one call *)

Lemma queue_cost_app fifo lot :
  (queue_cost (fifo ++ [lot])
   == queue_cost fifo + inject_Z (lot_quantity lot) * lot_price lot)%Q.
Proof.
  unfold queue_cost. induction fifo as [|l fifo IH]; cbn.
  - ring.
  - rewrite IH. ring.
Qed.

Lemma book_value_insert (fifos : gmap string (list Lot)) a fifo :
  book_value (<[a := fifo]> fifos) a = queue_cost fifo.
Proof. unfold book_value. by rewrite lookup_insert_eq. Qed.

Lemma book_value_delete (fifos : gmap string (list Lot)) a :
  book_value (delete a fifos) a = 0%Q.
Proof. unfold book_value. by rewrite lookup_delete_eq. Qed.

(** The loop books every unit at its price: the PnL it adds is the cash flow
    [- quantity * price] of the call plus the change of the book value. *)
Lemma fifo_loop_cost fifo q p pnl :
  match fifo_loop fifo q p pnl with
  | Returned pnl' fifo' _ =>
      (pnl' == pnl - inject_Z q * p + (queue_cost fifo' - queue_cost fifo))%Q
  | Completed pnl' q' fifo' =>
      (pnl' == pnl - inject_Z q * p
               + (queue_cost fifo' + inject_Z q' * p - queue_cost fifo))%Q
  end.
Proof.
  unfold queue_cost.
  revert q pnl. induction fifo as [|[fp fq] rest IH]; intros q pnl.
  - cbn. ring.
  - loop_cases fq q.
    + ring.
    + assert (fq = - q) as -> by lia. rewrite inject_Z_opp. ring.
    + rewrite inject_Z_plus. ring.
    + specialize (IH (q + fq) (pnl + inject_Z fq * (p - fp))%Q).
      destruct (fifo_loop rest _ _ _) as [pnl' fifo' deleted|pnl' q' fifo'];
        rewrite IH, inject_Z_plus; ring.
Qed.

Lemma fifo_add_cost (fifos : gmap string (list Lot)) q p a pnl fifos' :
  fifo_add fifos q p a = Ok (pnl, fifos') →
  (pnl == - (inject_Z q * p) + (book_value fifos' a - book_value fifos a))%Q.
Proof.
  rewrite fifo_add_unfold.
  pose proof (fifo_loop_cost (default [] (fifos !! a)) q p 0) as Hcost.
  fold (book_value fifos a) in Hcost.
  destruct (fifo_loop (default [] (fifos !! a)) q p 0)
    as [pnl0 fifo' deleted|pnl0 q' fifo'] eqn:Hloop;
    unfold fifo_add_outcome; intros [= <- <-].
  - apply fifo_loop_deleted in Hloop. destruct deleted.
    + rewrite book_value_delete.
      assert (fifo' = []) as -> by (by apply Hloop).
      change (queue_cost []) with 0%Q in Hcost. rewrite Hcost. ring.
    + rewrite book_value_insert, Hcost. ring.
  - rewrite book_value_insert, queue_cost_app, Hcost.
    change (lot_quantity (mkLot p q')) with q'.
    change (lot_price (mkLot p q')) with p. ring.
Qed.

(** X1. Nothing is lost in a call: the realized PnL it returns is the cash
    flow of the trade, [- quantity * price], plus the change of the book value
    of the asset's open lots. *)
Theorem fifo_add_cash_identity (fifos : gmap string (list Lot)) (q : Z) (p : Q)
    (a : string) :
  ∃ pnl fifos',
    fifo_add fifos q p a = Ok (pnl, fifos') ∧
    (pnl == - (inject_Z q * p) + (book_value fifos' a - book_value fifos a))%Q.
Proof.
  destruct (fifo_add fifos q p a) as [[pnl fifos']|e] eqn:Hadd.
  - exists pnl, fifos'. split; [done|]. by eapply fifo_add_cost.
  - by rewrite fifo_add_unfold in Hadd.
Qed.


(** ** Opening, extending and flipping a position *)

(** X3. A trade in the direction of the open position (or on an asset with
    no queue, or an empty one) matches nothing: the PnL is 0 and the lot
    {price, quantity} is appended behind the lots already there. *)
Theorem same_direction_appends (fifos : gmap string (list Lot)) (a : string)
    (q : Z) (p : Q) :
  match fifos !! a with
  | Some (front :: _) => sign (lot_quantity front) = sign q
  | _ => True
  end →
  fifo_add fifos q p a
  = Ok (0%Q, <[a := default [] (fifos !! a) ++ [mkLot p q]]> fifos).
Proof.
  intros Hfront. rewrite fifo_add_unfold.
  destruct (fifos !! a) as [[|front rest]|]; cbn -[sign]; try reflexivity.
  by rewrite Hfront, Z.eqb_refl.
Qed.

Lemma same_direction_appends_witness :
  fifo_add {[ "SPY"%string := [mkLot 100 (-5)] ]} (-3) 110 "SPY"
  = Ok (0%Q, {[ "SPY"%string := [mkLot 100 (-5); mkLot 110 (-3)] ]}).
Proof.
  rewrite (same_direction_appends {[ "SPY"%string := [mkLot 100 (-5)] ]} "SPY" (-3) 110).
  - vm_compute. reflexivity.
  - reflexivity.
Defined.

Lemma all_long_quantity_nonneg fifo : all_long fifo → 0 ≤ queue_quantity fifo.
Proof.
  intros Hall. destruct fifo as [|lot fifo]; [done|].
  pose proof (all_long_quantity _ Hall ltac:(done)). lia.
Qed.

Lemma all_short_quantity_nonpos fifo : all_short fifo → queue_quantity fifo ≤ 0.
Proof.
  intros Hall. destruct fifo as [|lot fifo]; [done|].
  pose proof (all_short_quantity _ Hall ltac:(done)). lia.
Qed.

(** A trade larger than the whole opposite queue consumes every lot. *)
Lemma fifo_loop_consumes_all fifo q p pnl :
  (all_long fifo ∧ q < 0 ∧ queue_quantity fifo < - q) ∨
  (all_short fifo ∧ 0 < q ∧ - queue_quantity fifo < q) →
  ∃ pnl', fifo_loop fifo q p pnl = Completed pnl' (q + queue_quantity fifo) [].
Proof.
  revert q pnl. induction fifo as [|[fp fq] rest IH]; intros q pnl Hside.
  - exists pnl. cbn. by rewrite Z.add_0_r.
  - assert (Hcons : queue_quantity (mkLot fp fq :: rest) = fq + queue_quantity rest)
      by reflexivity.
    rewrite Hcons in *.
    assert (Hrest : (all_long rest ∧ 0 < fq ∧ 0 ≤ queue_quantity rest ∧ q < 0
                     ∧ fq + queue_quantity rest < - q) ∨
                    (all_short rest ∧ fq < 0 ∧ queue_quantity rest ≤ 0 ∧ 0 < q
                     ∧ - (fq + queue_quantity rest) < q)).
    { destruct Hside as [(Hall & ? & ?)|(Hall & ? & ?)];
        apply Forall_cons in Hall as [Hfq Hall]; cbn in Hfq; [left | right];
        repeat split; try done.
      - by apply all_long_quantity_nonneg.
      - by apply all_short_quantity_nonpos. }
    loop_cases fq q; [lia | lia | lia |].
    destruct (IH (q + fq) (pnl + inject_Z fq * (p - fp))%Q) as [pnl' ->].
    { destruct Hrest as [(? & ? & ? & ? & ?)|(? & ? & ? & ? & ?)];
        [left | right]; repeat split; try done; lia. }
    exists pnl'. f_equal. lia.
Qed.





(** ** First in, first out *)

(** The loop only takes lots from the front: what it leaves of the queue is
    a suffix of it, whose first lot may have given up a part of its
    quantity. *)
Lemma fifo_loop_suffix fifo q p pnl :
  match fifo_loop fifo q p pnl with
  | Completed _ _ fifo' => ∃ k, fifo' = drop k fifo
  | Returned _ fifo' _ =>
      ∃ k, fifo' = drop k fifo ∨
           ∃ front q', fifo !! k = Some front ∧
                       fifo' = mkLot (lot_price front) q' :: drop (S k) fifo
  end.
Proof.
  revert q pnl. induction fifo as [|[fp fq] rest IH]; intros q pnl.
  - by exists 0%nat.
  - loop_cases fq q.
    + by exists 0%nat.
    + exists 1%nat. by left.
    + exists 0%nat. right. exists (mkLot fp fq), (fq + q). by rewrite drop_0.
    + specialize (IH (q + fq) (pnl + inject_Z fq * (p - fp))%Q).
      destruct (fifo_loop rest _ _ _) as [pnl' fifo' deleted|pnl' q' fifo'].
      * destruct IH as [k [->|(front & q' & Hk & ->)]]; exists (S k); [by left|].
        right. by exists front, q'.
      * destruct IH as [k ->]. by exists (S k).
Qed.

(** X6. First in, first out: a call consumes lots from the front of the
    queue only.  The queue it leaves is a suffix of the old queue, untouched,
    with the new lot appended; or such a suffix; or such a suffix whose first
    lot kept its price and changed its quantity. *)
Theorem fifo_add_takes_from_front (fifos : gmap string (list Lot)) (q : Z) (p : Q)
    (a : string) :
  ∃ pnl fifos' k,
    fifo_add fifos q p a = Ok (pnl, fifos') ∧
    let old := default [] (fifos !! a) in
    let new := default [] (fifos' !! a) in
    (∃ q', new = drop k old ++ [mkLot p q']) ∨
    new = drop k old ∨
    (∃ front q', old !! k = Some front ∧
                 new = mkLot (lot_price front) q' :: drop (S k) old).
Proof.
  rewrite fifo_add_unfold.
  pose proof (fifo_loop_suffix (default [] (fifos !! a)) q p 0) as Hsuffix.
  destruct (fifo_loop (default [] (fifos !! a)) q p 0)
    as [pnl fifo' deleted|pnl q' fifo'] eqn:Hloop; unfold fifo_add_outcome.
  - destruct Hsuffix as [k Hk]. exists pnl; eexists; exists k. split; [reflexivity|]. cbn zeta.
    apply fifo_loop_deleted in Hloop. destruct deleted.
    + assert (fifo' = []) as -> by (by apply Hloop).
      rewrite lookup_delete_eq. cbn [default from_option id].
      destruct Hk as [Hk|(front & q' & _ & [=])]. by right; left.
    + rewrite lookup_insert_eq. cbn [default from_option id].
      destruct Hk as [Hk|Hk]; [by right; left | by right; right].
  - destruct Hsuffix as [k ->]. exists pnl; eexists; exists k. split; [reflexivity|]. cbn zeta.
    rewrite lookup_insert_eq. cbn [default from_option id]. left. by exists q'.
Qed.

(** ** The sign of the realized PnL *)

Lemma gain_of_closing (x : Z) (c d : Q) :
  x ≤ 0 → (c <= d)%Q → (0 <= inject_Z x * (c - d))%Q.
Proof.
  intros Hx Hcd.
  assert (Hx' : (inject_Z x <= 0)%Q) by (unfold Qle; cbn; lia).
  nra.
Qed.

Lemma gain_of_covering (x : Z) (c d : Q) :
  0 ≤ x → (c <= d)%Q → (0 <= inject_Z x * (d - c))%Q.
Proof.
  intros Hx Hcd.
  assert (Hx' : (0 <= inject_Z x)%Q) by (unfold Qle; cbn; lia).
  nra.
Qed.

Lemma fifo_loop_gain fifo q p pnl :
  (q < 0 ∧ bought_below p fifo) ∨ (0 < q ∧ sold_above p fifo) →
  match fifo_loop fifo q p pnl with
  | Returned pnl' _ _ => (pnl <= pnl')%Q
  | Completed pnl' _ _ => (pnl <= pnl')%Q
  end.
Proof.
  unfold bought_below, sold_above.
  revert q pnl. induction fifo as [|[fp fq] rest IH]; intros q pnl Hside.
  - cbn. lra.
  - assert (Hfront : (q < 0 ∧ 0 < fq ∧ (fp <= p)%Q ∧ bought_below p rest) ∨
                     (0 < q ∧ fq < 0 ∧ (p <= fp)%Q ∧ sold_above p rest)).
    { destruct Hside as [[? Hall]|[? Hall]];
        apply Forall_cons in Hall as [[? ?] Hall]; cbn in *; [left | right]; done. }
    clear Hside. loop_cases fq q.
    + lra.
    + destruct Hfront as [(? & ? & ? & _)|(? & ? & ? & _)].
      * pose proof (gain_of_closing q fp p ltac:(lia) ltac:(done)). lra.
      * pose proof (gain_of_covering q p fp ltac:(lia) ltac:(done)). lra.
    + destruct Hfront as [(? & ? & ? & _)|(? & ? & ? & _)].
      * pose proof (gain_of_closing q fp p ltac:(lia) ltac:(done)). lra.
      * pose proof (gain_of_covering q p fp ltac:(lia) ltac:(done)). lra.
    + specialize (IH (q + fq) (pnl + inject_Z fq * (p - fp))%Q).
      assert (Hstep : (pnl <= pnl + inject_Z fq * (p - fp))%Q).
      { destruct Hfront as [(? & ? & ? & _)|(? & ? & ? & _)].
        - pose proof (gain_of_covering fq fp p ltac:(lia) ltac:(done)). lra.
        - pose proof (gain_of_closing fq p fp ltac:(lia) ltac:(done)). lra. }
      assert (Hrest : (q + fq < 0 ∧ bought_below p rest) ∨ (0 < q + fq ∧ sold_above p rest)).
      { destruct Hfront as [(? & ? & ? & ?)|(? & ? & ? & ?)]; [left | right];
          (split; [lia | done]). }
      specialize (IH Hrest).
      destruct (fifo_loop rest _ _ _); lra.
Qed.

(** X7. The sign convention of the PnL: selling out of a long queue at a
    price that is not below the price of any of its lots, or buying back
    against a short queue at a price that is not above the price of any of its
    lots, never returns a loss. *)
Theorem closing_at_better_price_gains (fifos : gmap string (list Lot)) (a : string)
    (q : Z) (p : Q) (fifo : list Lot) :
  fifos !! a = Some fifo →
  (q < 0 ∧ bought_below p fifo) ∨ (0 < q ∧ sold_above p fifo) →
  ∃ pnl fifos', fifo_add fifos q p a = Ok (pnl, fifos') ∧ (0 <= pnl)%Q.
Proof.
  intros Hget Hside. rewrite fifo_add_unfold, Hget. cbn [default from_option id].
  pose proof (fifo_loop_gain fifo q p 0 Hside) as Hgain.
  destruct (fifo_loop fifo q p 0) as [pnl fifo' deleted|pnl q' fifo'];
    unfold fifo_add_outcome; by eexists _, _.
Qed.

Lemma closing_at_better_price_gains_witness :
  ∃ pnl fifos',
    fifo_add {[ "SPY"%string := [mkLot 100 (-5); mkLot 98 (-2)] ]} 6 95 "SPY"
    = Ok (pnl, fifos') ∧ (0 <= pnl)%Q.
Proof.
  apply (closing_at_better_price_gains _ "SPY" 6 95 [mkLot 100 (-5); mkLot 98 (-2)]).
  - reflexivity.
  - right. split; [reflexivity|].
    repeat constructor; cbn; discriminate.
Defined.

(** * Further properties of the processing loop *)

(** ** One trade row *)

Section TradeRow.
Variable strftime_expire : string → result string.
Variable str_float : Q → string.

(** What [check_row] does with the result of [fifo_add]. *)
Lemma check_row_unfold st r st' :
  check_row strftime_expire str_float st r = Ok st' →
  ∃ asset q p cs pnl,
    trade_args strftime_expire str_float (st_fifos st) r = Ok (asset, q, p, cs) ∧
    fifo_add (st_fifos st) q p asset = Ok (pnl, st_fifos st') ∧
    st_pnl_stocks st' = (if cs then st_pnl_stocks st + pnl else st_pnl_stocks st)%Q ∧
    st_pnl st' = (if cs then st_pnl st else st_pnl st + pnl)%Q.
Proof.
  unfold check_row.
  destruct (trade_args _ _ _ r) as [[[[asset q] p] cs]|e]; cbn; [|done].
  destruct (fifo_add (st_fifos st) q p asset) as [[pnl fifos']|e] eqn:Hadd; cbn; [|done].
  intros Hst. exists asset, q, p, cs, pnl. split; [done|].
  rewrite Hadd. by destruct cs; inversion Hst.
Qed.

Lemma asset_key_flag r asset price0 cs :
  asset_key strftime_expire str_float r = Ok (asset, price0, cs) →
  (expire r ≠ "nan"%string → cs = false ∧ price0 = (price r * 100)%Q) ∧
  (expire r = "nan"%string → is_stock (symbol r) = Ok cs ∧ price0 = price r).
Proof.
  unfold asset_key. case_bool_decide as Hexp.
  - destruct (strftime_expire (expire r)); cbn; [|done].
    intros [= <- <- <-]. split; done.
  - destruct (is_stock (symbol r)) as [cs0|]; cbn; [|done].
    intros [= <- <- <-]. split; [|done]. intros Hne. by destruct Hexp.
Qed.

Lemma trade_args_unfold fifos r asset q p cs :
  trade_args strftime_expire str_float fifos r = Ok (asset, q, p, cs) →
  ∃ price0,
    asset_key strftime_expire str_float r = Ok (asset, price0, cs) ∧
    signed_quantity fifos r asset = Ok q ∧
    check_trade (tsubcode r) (- (inject_Z q * price0))%Q (amount r) = Ok tt ∧
    q ≠ 0 ∧ p = Qabs ((amount r - fees r) / inject_Z q).
Proof.
  unfold trade_args.
  destruct (asset_key _ _ r) as [[[asset0 price0] cs0]|e] eqn:Hkey; cbn; [|done].
  destruct (signed_quantity fifos r asset0) as [q0|e] eqn:Hsigned; cbn; [|done].
  destruct (check_trade _ _ _) as [[]|e] eqn:Hcheck; cbn; [|done].
  destruct (Z.eqb_spec q0 0) as [Hz|Hz]; cbn; [done|].
  intros [= <- <- <- <-]. by exists price0.
Qed.
End TradeRow.

Lemma abs_of_cash_flow (q : Z) (x : Q) :
  q ≠ 0 → (inject_Z q * x <= 0)%Q → (- (inject_Z q * Qabs (x / inject_Z q)) == x)%Q.
Proof.
  intros Hq Hx.
  assert (Hneg : (x / inject_Z q <= 0)%Q).
  { destruct (Z.lt_total q 0) as [Hlt|[Heq|Hlt]]; [|done|].
    - assert (Hq' : (0 < inject_Z (- q))%Q) by (unfold Qlt; cbn; lia).
      assert (Heq : (x / inject_Z q == (- x) / inject_Z (- q))%Q).
      { rewrite inject_Z_opp. field. by apply inject_Z_nonzero. }
      rewrite Heq. apply Qle_shift_div_r; [done|].
      rewrite inject_Z_opp in Hq'. nra.
    - assert (Hq' : (0 < inject_Z q)%Q) by (unfold Qlt; cbn; lia).
      apply Qle_shift_div_r; [done|]. nra. }
  rewrite (Qabs_neg _ Hneg). field. by apply inject_Z_nonzero.
Qed.

(** X8. A trade row is booked at its cash flow: when the net amount
    [amount - fees] flows against the quantity (paid on a purchase, received
    on a sale), the PnL that [check] adds to its two sums is the net amount
    plus the change of the book value of the asset's open lots. *)
Theorem check_row_books_cash_flow (strftime_expire : string → result string)
    (str_float : Q → string) (st st' : State) (r : Row) (asset : string)
    (q : Z) (p : Q) (cs : bool) :
  trade_args strftime_expire str_float (st_fifos st) r = Ok (asset, q, p, cs) →
  check_row strftime_expire str_float st r = Ok st' →
  (inject_Z q * (amount r - fees r) <= 0)%Q →
  (st_pnl_stocks st' + st_pnl st'
   == st_pnl_stocks st + st_pnl st + (amount r - fees r)
      + (book_value (st_fifos st') asset - book_value (st_fifos st) asset))%Q.
Proof.
  intros Hargs Hrow Hflow.
  destruct (check_row_unfold _ _ _ _ _ Hrow)
    as (asset0 & q0 & p0 & cs0 & pnl & Hargs0 & Hadd & Hstocks & Hpnl).
  rewrite Hargs in Hargs0. injection Hargs0 as <- <- <- <-.
  apply trade_args_unfold in Hargs as (price0 & _ & _ & _ & Hq & Hp).
  apply fifo_add_cost in Hadd.
  rewrite Hstocks, Hpnl.
  assert (Hcash : (- (inject_Z q * p) == amount r - fees r)%Q).
  { rewrite Hp. by apply abs_of_cash_flow. }
  destruct cs; rewrite Hadd, Hcash; ring.
Qed.

Lemma check_row_books_cash_flow_witness :
  let r := mkRow "Sell to Close" "AAPL" "Sell" 10 "nan" 0 "nan" 120 1 1200 in
  let st := mkState {[ "AAPL"%string := [mkLot 100 10] ]} 0 0 in
  ∃ st',
    check_row strftime_padded str_half st r = Ok st' ∧
    (st_pnl_stocks st' + st_pnl st' == 199)%Q.
Proof.
  cbn zeta.
  set (r := mkRow "Sell to Close" "AAPL" "Sell" 10 "nan" 0 "nan" 120 1 1200).
  set (st := mkState {[ "AAPL"%string := [mkLot 100 10] ]} 0 0).
  destruct (check_row strftime_padded str_half st r) as [st'|e] eqn:Hrow;
    [|by vm_compute in Hrow].
  exists st'. split; [reflexivity|].
  assert (Hargs : trade_args strftime_padded str_half (st_fifos st) r
                  = Ok ("AAPL"%string, -10, (1199 # 10)%Q, true))
    by (vm_compute; reflexivity).
  rewrite (check_row_books_cash_flow _ _ st st' r _ _ _ _ Hargs Hrow)
    by (vm_compute; discriminate).
  assert (Hst' : st_fifos st' = ∅) by (vm_compute in Hrow; by injection Hrow as <-).
  rewrite Hst'. vm_compute. reflexivity.
Defined.

(** X9. Where the PnL of a trade row goes: the PnL of an option row or of
    a row of a known ETF is never added to [pnl_stocks]; every other row that
    is processed is a row of one of the three known stocks, and its PnL is
    never added to [pnl]. *)
Theorem pnl_bucket (strftime_expire : string → result string)
    (str_float : Q → string) (st st' : State) (r : Row) :
  check_row strftime_expire str_float st r = Ok st' →
  (expire r ≠ "nan"%string ∨ symbol r ∈ etfs → st_pnl_stocks st' = st_pnl_stocks st) ∧
  (expire r = "nan"%string → symbol r ∉ etfs →
   symbol r ∈ ["M"; "AAPL"; "TSLA"]%string ∧ st_pnl st' = st_pnl st).
Proof.
  intros Hrow.
  destruct (check_row_unfold _ _ _ _ _ Hrow)
    as (asset & q & p & cs & pnl & Hargs & _ & Hstocks & Hpnl).
  apply trade_args_unfold in Hargs as (price0 & Hkey & _).
  apply asset_key_flag in Hkey as [Hoption Hstock].
  rewrite Hstocks, Hpnl. split.
  - destruct (decide (expire r = "nan"%string)) as [Hexp|Hexp].
    + intros [?|Hetf]; [done|]. destruct (Hstock Hexp) as [Hcs _].
      unfold is_stock in Hcs. rewrite bool_decide_eq_true_2 in Hcs by done.
      by injection Hcs as <-.
    + intros _. by destruct (Hoption Hexp) as [-> _].
  - intros Hexp Hetf. destruct (Hstock Hexp) as [Hcs _].
    unfold is_stock in Hcs. rewrite bool_decide_eq_false_2 in Hcs by done.
    case_bool_decide; [|done]. by injection Hcs as <-.
Qed.

Lemma pnl_bucket_witness :
  let r := mkRow "Sell to Close" "AAPL" "Sell" 10 "nan" 0 "nan" 120 1 1200 in
  let st := mkState {[ "AAPL"%string := [mkLot 100 10] ]} 0 7 in
  ∃ st', check_row strftime_padded str_half st r = Ok st' ∧ st_pnl st' = 7%Q.
Proof.
  cbn zeta.
  set (r := mkRow "Sell to Close" "AAPL" "Sell" 10 "nan" 0 "nan" 120 1 1200).
  set (st := mkState {[ "AAPL"%string := [mkLot 100 10] ]} 0 7).
  destruct (check_row strftime_padded str_half st r) as [st'|e] eqn:Hrow;
    [|by vm_compute in Hrow].
  exists st'. split; [reflexivity|].
  apply (pnl_bucket _ _ st st' r Hrow); [reflexivity|].
  intros Hetf. apply (bool_decide_eq_true_2 _) in Hetf.
  vm_compute in Hetf. discriminate.
Defined.

(** ** [fifos_islong] *)

(** X11. [fifos_islong] reads the front lot only, and on a ledger that
    keeps the lot invariant that is safe: when it answers, the queue is not
    empty, every lot of it is long exactly when the answer is [True], and the
    answer is [True] exactly when the net quantity of the asset is positive. *)
Theorem fifos_islong_whole_queue (fifos : gmap string (list Lot)) (a : string)
    (b : bool) :
  lot_invariant fifos →
  fifos_islong fifos a = Ok b →
  ∃ fifo,
    fifos !! a = Some fifo ∧ fifo ≠ [] ∧
    (∀ lot, lot ∈ fifo → (0 <? lot_quantity lot) = b) ∧
    (b = true ↔ 0 < net_quantity fifos a).
Proof.
  intros Hinv. unfold fifos_islong, getitem, net_quantity.
  destruct (fifos !! a) as [[|front rest]|] eqn:Hget; cbn -[queue_quantity]; try done.
  intros [= <-]. exists (front :: rest). split; [done|]. split; [done|].
  destruct (proj1 (one_sided_iff _) (Hinv _ _ Hget)) as [Hall|Hall].
  - pose proof (all_long_quantity _ Hall ltac:(done)).
    unfold all_long in Hall. rewrite Forall_forall in Hall.
    pose proof (Hall front (list_elem_of_here _ _)) as Hfront. cbn in Hfront.
    replace (0 <? lot_quantity front) with true by (symmetry; by apply Z.ltb_lt).
    split; [|done]. intros lot Hlot. apply Z.ltb_lt. by apply Hall.
  - pose proof (all_short_quantity _ Hall ltac:(done)).
    unfold all_short in Hall. rewrite Forall_forall in Hall.
    pose proof (Hall front (list_elem_of_here _ _)) as Hfront. cbn in Hfront.
    replace (0 <? lot_quantity front) with false by (symmetry; apply Z.ltb_ge; lia).
    split; [|split; [done | lia]].
    intros lot Hlot. apply Z.ltb_ge. specialize (Hall _ Hlot). cbn in Hall. lia.
Qed.

Lemma fifos_islong_whole_queue_witness :
  ∃ fifo,
    ({[ "SPY"%string := [mkLot 100 (-5); mkLot 98 (-2)] ]} : gmap string (list Lot))
      !! "SPY"%string = Some fifo ∧ fifo ≠ [] ∧
    (∀ lot, lot ∈ fifo → (0 <? lot_quantity lot) = false) ∧
    (false = true ↔
     0 < net_quantity {[ "SPY"%string := [mkLot 100 (-5); mkLot 98 (-2)] ]} "SPY").
Proof.
  apply (fifos_islong_whole_queue _ "SPY" false); [|reflexivity].
  intros b fifo [_ <-]%lookup_singleton_Some. apply one_sided_iff.
  right. repeat constructor.
Defined.

(** * The whole loop *)

Example check_example_wk :
  check strftime_padded str_half example_wk
  = Ok (mkRun (mkState ∅ (19800 # 100) 0) (mkSums 2 2203 0 0 0 2005 0 0)
          (Some (Some "5WT00001"%string))).
Proof. vm_compute. reflexivity. Qed.

Lemma raise_if_ok c : raise_if c = Ok tt → c = false.
Proof. by destruct c. Qed.

Lemma cell_ne_false a b : cell_ne a b = false → ∃ s, a = Some s ∧ b = Some s.
Proof.
  destruct a as [x|], b as [y|]; cbn; try done.
  intros Hne. apply bool_decide_eq_false in Hne.
  exists x. split; [done|]. f_equal. by destruct (decide (x = y)); [|destruct Hne].
Qed.

Ltac money_cases :=
  unfold money_movement;
  repeat case_bool_decide;
  repeat match goal with
  | |- context [raise_if ?c] => destruct c eqn:?; cbn
  end;
  try done; intros [= <-];
  repeat match goal with
  | H : negb (Qeq_bool _ _) = false |- _ =>
      apply negb_false_iff in H; apply Qeq_bool_iff in H
  | H : Qle_bool _ _ = false |- _ =>
      apply not_true_iff_false in H; rewrite Qle_bool_iff in H; apply Qnot_le_lt in H
  end.

Lemma money_movement_sums s tsubcode description amount fees s' :
  money_movement s tsubcode description amount fees = Ok s' →
  total s' = total s ∧ (sums_signed s → sums_signed s').
Proof.
  money_cases;
    unfold sums_signed, add_interest, add_dividend, add_fee_adjustment, add_withdrawal;
    repeat match goal with
    | |- context [Qle_bool ?a ?b] =>
        let Hle := fresh "Hle" in
        destruct (Qle_bool a b) eqn:Hle;
        [apply Qle_bool_iff in Hle
        |apply not_true_iff_false in Hle; rewrite Qle_bool_iff in Hle;
         apply Qnot_le_lt in Hle]
    end;
    cbn; (split; [reflexivity|]);
    intros (? & ? & ? & ? & ?); repeat split; lra.
Qed.

Lemma money_movement_fees s tsubcode description amount fees s' :
  money_movement s tsubcode description amount fees = Ok s' →
  tsubcode ∈ money_subcodes →
  tsubcode ≠ "Transfer"%string →
  (fees == 0)%Q.
Proof.
  money_cases; intros Hin Hne; try assumption.
  unfold money_subcodes in Hin. set_unfold. intuition congruence.
Qed.

Section WholeLoop.
Variable strftime_expire : string → result string.
Variable str_float : Q → string.

(** A row whose quantity is missing never gets through the trade branch. *)
Lemma nan_quantity_row_raises fifos w price0 :
  ∃ e, nan_quantity_row strftime_expire str_float fifos w price0 = Raise e.
Proof.
  unfold nan_quantity_row.
  destruct (asset_key _ _ _) as [[[asset p0] cs]|e]; cbn; [|by eexists].
  destruct (signed_quantity _ _ _) as [q|e]; cbn; [|by eexists].
  case_bool_decide; cbn; [by eexists|].
  destruct (raise_if _) as [[]|e]; cbn; by eexists.
Qed.

(** What a row that is processed went through. *)
Lemma check_body_inv st w st' :
  check_body strftime_expire str_float st w = Ok st' →
  check_tcode (wk_tcode w) (wk_tsubcode w) (wk_description w) = Ok tt ∧
  check_param (wk_buysell w) (wk_openclose w) (wk_callput w) = Ok tt ∧
  (∃ ref, wk_account_ref w = Some ref ∧
          check_account_ref st' = Some (Some ref) ∧
          ∀ c, check_account_ref st = Some c → c = Some ref) ∧
  (0 <= default 0 (wk_price w))%Q ∧
  ((wk_tcode w = "Money Movement"%string ∧
    run_ledger st' = run_ledger st ∧
    money_movement (add_fees (wk_fees w) (wk_amount w) (run_sums st))
      (wk_tsubcode w) (wk_description w) (wk_amount w) (wk_fees w)
    = Ok (run_sums st')) ∨
   (wk_tcode w ≠ "Money Movement"%string ∧
    run_sums st' = add_fees (wk_fees w) (wk_amount w) (run_sums st) ∧
    ∃ x, wk_quantity w = Some x ∧ (inject_Z (int_of x) == x)%Q ∧
         check_row strftime_expire str_float (run_ledger st)
           (row_of w (int_of x) (default 0%Q (wk_price w)))
         = Ok (run_ledger st'))).
Proof.
  unfold check_body.
  destruct (check_tcode _ _ _) as [[]|e] eqn:Htcode; cbn; [|done].
  destruct (check_param _ _ _) as [[]|e] eqn:Hparam; cbn; [|done].
  destruct (raise_if (cell_ne _ _)) as [[]|e] eqn:Hne; cbn; [|done].
  apply raise_if_ok, cell_ne_false in Hne as (ref & Href & Hsame).
  destruct (int_quantity (wk_quantity w)) as [quantity|e] eqn:Hquantity; cbn; [|done].
  destruct (raise_if (negb _)) as [[]|e] eqn:Hprice; cbn; [|done].
  apply raise_if_ok, negb_false_iff, Qle_bool_iff in Hprice.
  assert (Hacc : ∃ ref0, wk_account_ref w = Some ref0 ∧
            match check_account_ref st with
            | Some ref1 => ref1
            | None => wk_account_ref w
            end = Some ref0 ∧
            ∀ c, check_account_ref st = Some c → c = Some ref0).
  { exists ref. split; [done|]. split; [done|].
    intros c Hc. by rewrite Hc in Hsame. }
  destruct Hacc as (ref0 & Href0 & Hsame0 & Holder).
  case_bool_decide as Hmoney.
  - destruct (money_movement _ _ _ _ _) as [sums|e] eqn:Hsums; cbn; [|done].
    intros [= <-]. cbn. repeat split; try done.
    + exists ref0. by rewrite Hsame0.
    + by left.
  - destruct (trade_branch _ _ _ _ _ _) as [ledger|e] eqn:Htrade; cbn; [|done].
    intros [= <-]. cbn. repeat split; try done.
    + exists ref0. by rewrite Hsame0.
    + right. split; [done|]. split; [done|].
      unfold trade_branch in Htrade.
      destruct (_ && _); [done|].
      destruct quantity as [q|].
      * unfold int_quantity in Hquantity.
        destruct (wk_quantity w) as [x|]; [|done].
        destruct (raise_if _) as [[]|e] eqn:Hint; cbn in Hquantity; [|done].
        injection Hquantity as <-.
        apply raise_if_ok, negb_false_iff, Qeq_bool_iff in Hint.
        by exists x.
      * destruct (nan_quantity_row_raises (st_fifos (run_ledger st)) w
                    (default 0%Q (wk_price w))) as [e He].
        by rewrite He in Htrade.
Qed.
End WholeLoop.

Lemma fifo_loop_prices fifo q p pnl :
  Forall (λ lot, (0 <= lot_price lot)%Q) fifo →
  match fifo_loop fifo q p pnl with
  | Returned _ fifo' _ => Forall (λ lot, (0 <= lot_price lot)%Q) fifo'
  | Completed _ _ fifo' => Forall (λ lot, (0 <= lot_price lot)%Q) fifo'
  end.
Proof.
  revert q pnl. induction fifo as [|[fp fq] rest IH]; intros q pnl Hall; [done|].
  apply Forall_cons in Hall as [Hfront Hrest].
  loop_cases fq q.
  - by apply Forall_cons.
  - done.
  - by apply Forall_cons.
  - by apply IH.
Qed.

Lemma fifo_add_prices (fifos : gmap string (list Lot)) q p a pnl fifos' :
  (0 <= p)%Q → prices_nonneg fifos →
  fifo_add fifos q p a = Ok (pnl, fifos') →
  prices_nonneg fifos'.
Proof.
  intros Hp Hinv. rewrite fifo_add_unfold. intros Hadd b fifo.
  assert (Hqueue : Forall (λ lot, (0 <= lot_price lot)%Q) (default [] (fifos !! a))).
  { destruct (fifos !! a) as [fifo0|] eqn:Hget; cbn; [by eapply Hinv | constructor]. }
  pose proof (fifo_loop_prices _ q p 0 Hqueue) as Hloop.
  destruct (fifo_loop (default [] (fifos !! a)) q p 0) as [pnl0 fifo0 deleted|pnl0 q0 fifo0];
    cbn in Hadd; inversion Hadd; subst; clear Hadd.
  - destruct deleted.
    + rewrite lookup_delete. case_decide; [done | apply Hinv].
    + rewrite lookup_insert. case_decide; [by intros [= <-] | apply Hinv].
  - rewrite lookup_insert. case_decide; [| apply Hinv].
    intros [= <-]. apply Forall_app. split; [done|]. by apply Forall_singleton.
Qed.

Lemma ledger_ok_empty : ledger_ok ∅.
Proof.
  split; [|split].
  - intros a fifo. by rewrite lookup_empty.
  - intros a. by rewrite lookup_empty.
  - intros a fifo. by rewrite lookup_empty.
Qed.

Lemma check_row_ledger_ok (strftime_expire : string → result string)
    (str_float : Q → string) st r st' :
  ledger_ok (st_fifos st) →
  check_row strftime_expire str_float st r = Ok st' →
  ledger_ok (st_fifos st').
Proof.
  intros (Hinv & Hne & Hprices) Hrow.
  destruct (check_row_ledger _ _ _ _ _ Hinv Hne Hrow) as [Hinv' Hne'].
  split; [done|]. split; [done|].
  destruct (check_row_unfold _ _ _ _ _ Hrow)
    as (asset & q & p & cs & pnl & Hargs & Hadd & _).
  apply trade_args_unfold in Hargs as (_ & _ & _ & _ & _ & ->).
  eapply fifo_add_prices; [apply Qabs_nonneg | exact Hprices | exact Hadd].
Qed.

Lemma check_loop_preserves (strftime_expire : string → result string)
    (str_float : Q → string) (P : Run → Prop) :
  (∀ st w st', P st → check_body strftime_expire str_float st w = Ok st' → P st') →
  ∀ rows st st', P st → check_loop strftime_expire str_float st rows = Ok st' → P st'.
Proof.
  intros Hstep. induction rows as [|w rows IH]; intros st st' HP; cbn.
  - by intros [= <-].
  - destruct (check_body _ _ st w) as [st1|e] eqn:Hbody; cbn; [|done].
    apply IH. by eapply Hstep.
Qed.

(** X12. What a row leaves alone: a Money Movement row never changes the
    ledger or the two PnL sums; any other row changes none of the cash sums
    but for its fees, added to [total_fees], and its net amount, added to
    [total]. *)
Theorem check_body_frame (strftime_expire : string → result string)
    (str_float : Q → string) (st st' : Run) (w : Csv) :
  check_body strftime_expire str_float st w = Ok st' →
  (wk_tcode w = "Money Movement"%string → run_ledger st' = run_ledger st) ∧
  (wk_tcode w ≠ "Money Movement"%string →
   run_sums st' = add_fees (wk_fees w) (wk_amount w) (run_sums st)).
Proof.
  intros Hbody.
  destruct (check_body_inv _ _ _ _ _ Hbody)
    as (_ & _ & _ & _ & [(Hmoney & Hledger & _)|(Hmoney & Hsums & _)]); by split.
Qed.

Lemma check_body_frame_witness :
  let w := mkCsv "Money Movement" "Dividend" "AAPL" "nan" "nan" None "nan" None "nan"
             None 0 5 "APPLE INC" (Some "5WT00001"%string) in
  let st := mkRun (mkState {[ "AAPL"%string := [mkLot 100 10] ]} 3 4)
              (mkSums 0 0 0 0 0 0 0 0) None in
  ∃ st', check_body strftime_padded str_half st w = Ok st' ∧
         run_ledger st' = run_ledger st.
Proof.
  cbn zeta.
  set (w := mkCsv _ _ _ _ _ _ _ _ _ _ _ _ _ _). set (st := mkRun _ _ _).
  destruct (check_body strftime_padded str_half st w) as [st'|e] eqn:Hbody;
    [|by vm_compute in Hbody].
  exists st'. split; [reflexivity|].
  by apply (check_body_frame _ _ st st' w Hbody).
Defined.

(** X13. The ledger that [check] has built when it reaches the report is
    well formed, whatever the file: every lot has a non-zero quantity, the
    lots of one asset have the same sign, no key holds an empty queue and no
    lot has a negative price. *)
Theorem check_keeps_ledger (strftime_expire : string → result string)
    (str_float : Q → string) (wk : list Csv) (st : Run) :
  check strftime_expire str_float wk = Ok st →
  lot_invariant (st_fifos (run_ledger st)) ∧
  no_empty_queue (st_fifos (run_ledger st)) ∧
  prices_nonneg (st_fifos (run_ledger st)).
Proof.
  unfold check.
  apply (check_loop_preserves _ _ (λ st, ledger_ok (st_fifos (run_ledger st))));
    [|apply ledger_ok_empty].
  intros st0 w st1 Hok Hbody.
  destruct (check_body_inv _ _ _ _ _ Hbody)
    as (_ & _ & _ & _ & [(_ & -> & _)|(_ & _ & x & _ & _ & Hrow)]); [done|].
  by eapply check_row_ledger_ok.
Qed.

Lemma check_keeps_ledger_witness :
  ∃ st, check strftime_padded str_half (drop 2 example_wk) = Ok st ∧
        lot_invariant (st_fifos (run_ledger st)) ∧
        st_fifos (run_ledger st) !! "AAPL"%string = Some [mkLot (1001 # 10) 10].
Proof.
  destruct (check strftime_padded str_half (drop 2 example_wk)) as [st|e] eqn:Hrun;
    [|by vm_compute in Hrun].
  exists st. split; [reflexivity|]. split.
  - by apply (check_keeps_ledger _ _ _ _ Hrun).
  - vm_compute in Hrun. by injection Hrun as <-.
Defined.

(** ** The sums of the report *)

Lemma cash_flow_app rows w :
  (cash_flow (rows ++ [w]) == cash_flow rows + (wk_amount w - wk_fees w))%Q.
Proof.
  unfold cash_flow. induction rows as [|w0 rows IH]; cbn.
  - ring.
  - rewrite IH. ring.
Qed.

Lemma cash_flow_reverse rows : (cash_flow (reverse rows) == cash_flow rows)%Q.
Proof.
  induction rows as [|w rows IH]; [reflexivity|].
  rewrite reverse_cons, cash_flow_app, IH. unfold cash_flow. cbn. ring.
Qed.

Lemma check_body_total (strftime_expire : string → result string)
    (str_float : Q → string) st w st' :
  check_body strftime_expire str_float st w = Ok st' →
  total (run_sums st') = (total (run_sums st) + (wk_amount w - wk_fees w))%Q.
Proof.
  intros Hbody.
  destruct (check_body_inv _ _ _ _ _ Hbody)
    as (_ & _ & _ & _ & [(_ & _ & Hmoney)|(_ & -> & _)]); [|done].
  by apply money_movement_sums in Hmoney as [-> _].
Qed.

Lemma check_loop_total (strftime_expire : string → result string)
    (str_float : Q → string) rows st st' :
  check_loop strftime_expire str_float st rows = Ok st' →
  (total (run_sums st') == total (run_sums st) + cash_flow rows)%Q.
Proof.
  unfold cash_flow.
  revert st. induction rows as [|w rows IH]; intros st; cbn.
  - intros [= <-]. ring.
  - destruct (check_body _ _ st w) as [st1|e] eqn:Hbody; cbn; [|done].
    intros Hloop. rewrite (IH _ Hloop), (check_body_total _ _ _ _ _ Hbody). ring.
Qed.

(** X14. The account end total of the report is the sum of
    [amount - fees] over all rows of the file. *)
Theorem check_total (strftime_expire : string → result string)
    (str_float : Q → string) (wk : list Csv) (st : Run) :
  check strftime_expire str_float wk = Ok st →
  (total (run_sums st) == cash_flow wk)%Q.
Proof.
  unfold check. intros Hloop.
  rewrite (check_loop_total _ _ _ _ _ Hloop), cash_flow_reverse. cbn. ring.
Qed.

Lemma check_total_witness :
  ∃ st, check strftime_padded str_half example_wk = Ok st ∧
        (total (run_sums st) == 2203)%Q.
Proof.
  destruct (check strftime_padded str_half example_wk) as [st|e] eqn:Hrun;
    [|by vm_compute in Hrun].
  exists st. split; [reflexivity|].
  rewrite (check_total _ _ _ _ Hrun). vm_compute. reflexivity.
Defined.

(** X15. The signs of the sums of the report: dividends and interest
    received are never negative; withholding tax, interest paid and the
    withdrawals are never positive. *)
Theorem check_sums_signed (strftime_expire : string → result string)
    (str_float : Q → string) (wk : list Csv) (st : Run) :
  check strftime_expire str_float wk = Ok st →
  sums_signed (run_sums st).
Proof.
  unfold check.
  apply (check_loop_preserves _ _ (λ st, sums_signed (run_sums st))).
  - intros st0 w st1 Hsigned Hbody.
    destruct (check_body_inv _ _ _ _ _ Hbody)
      as (_ & _ & _ & _ & [(_ & _ & Hmoney)|(_ & -> & _)]); [|done].
    by apply (money_movement_sums _ _ _ _ _ _ Hmoney).
  - unfold sums_signed. cbn. repeat split; lra.
Qed.

Lemma check_sums_signed_witness :
  ∃ st, check strftime_padded str_half example_wk = Ok st ∧
        sums_signed (run_sums st).
Proof.
  destruct (check strftime_padded str_half example_wk) as [st|e] eqn:Hrun;
    [|by vm_compute in Hrun].
  exists st. split; [reflexivity|]. by apply (check_sums_signed _ _ _ _ Hrun).
Defined.

(** ** What a file must look like to be processed *)

Lemma check_loop_account (strftime_expire : string → result string)
    (str_float : Q → string) rows st st' :
  check_loop strftime_expire str_float st rows = Ok st' →
  (∀ c, check_account_ref st = Some c → check_account_ref st' = Some c) ∧
  ∀ w, w ∈ rows →
       is_Some (wk_account_ref w) ∧ check_account_ref st' = Some (wk_account_ref w).
Proof.
  revert st. induction rows as [|w rows IH]; intros st; cbn.
  - intros [= <-]. split; [done|]. by intros w Hw%elem_of_nil.
  - destruct (check_body _ _ st w) as [st1|e] eqn:Hbody; cbn; [|done].
    intros Hloop. destruct (IH _ Hloop) as [Hkeep Hrows].
    destruct (check_body_inv _ _ _ _ _ Hbody) as (_ & _ & (ref & Href & Hst1 & Hold) & _).
    split.
    + intros c Hc. rewrite (Hold _ Hc). by apply Hkeep.
    + intros w0 [->|Hw0]%elem_of_cons; [|by apply Hrows].
      rewrite Href. split; [done|]. by apply Hkeep.
Qed.

(** X16. One account per run: when [check] reaches the report, every row of
    the file has an account reference, and it is the same for all rows.  A
    row without one, or with another one, ends the run with an error. *)
Theorem check_one_account (strftime_expire : string → result string)
    (str_float : Q → string) (wk : list Csv) (st : Run) :
  check strftime_expire str_float wk = Ok st →
  ∀ w, w ∈ wk →
       is_Some (wk_account_ref w) ∧ check_account_ref st = Some (wk_account_ref w).
Proof.
  unfold check. intros Hloop w Hw.
  apply (check_loop_account _ _ _ _ _ Hloop). by apply elem_of_reverse.
Qed.

Lemma check_one_account_witness :
  ∃ st, check strftime_padded str_half example_wk = Ok st ∧
        ∀ w, w ∈ example_wk → check_account_ref st = Some (wk_account_ref w).
Proof.
  destruct (check strftime_padded str_half example_wk) as [st|e] eqn:Hrun;
    [|by vm_compute in Hrun].
  exists st. split; [reflexivity|].
  intros w Hw. by apply (check_one_account _ _ _ _ Hrun).
Defined.

(** X18. The subcodes Expiration, Assignment and Exercise are accepted
    with the transaction code 'Receive Deliver' only. *)
Theorem closing_subcode_tcode (tcode tsubcode description : string) :
  check_tcode tcode tsubcode description = Ok tt →
  tsubcode ∈ closing_subcodes →
  tcode = "Receive Deliver"%string.
Proof.
  unfold check_tcode. intros Hcheck Hsub.
  assert (Hmoney : tsubcode ∉ money_subcodes).
  { unfold closing_subcodes, money_subcodes in *. set_unfold. intuition congruence. }
  assert (Htrade : tsubcode ∉ trade_subcodes).
  { unfold closing_subcodes, trade_subcodes in *. set_unfold. intuition congruence. }
  destruct (raise_if (bool_decide (tcode ∉ _))) as [[]|e] eqn:Hcode; cbn in Hcheck; [|done].
  apply raise_if_ok, bool_decide_eq_false in Hcode.
  case_bool_decide as H1.
  - rewrite (bool_decide_eq_true_2 _ Hmoney) in Hcheck. done.
  - case_bool_decide as H2.
    + rewrite (bool_decide_eq_true_2 _ Htrade) in Hcheck. done.
    + case_bool_decide as H3; [done|].
      exfalso. apply Hcode. set_unfold. intuition congruence.
Qed.

Lemma closing_subcode_tcode_witness :
  check_tcode "Receive Deliver" "Assignment" "nan" = Ok tt ∧
  "Receive Deliver"%string = "Receive Deliver"%string.
Proof.
  split; [reflexivity|].
  apply (closing_subcode_tcode "Receive Deliver" "Assignment" "nan"); [reflexivity|].
  unfold closing_subcodes. set_unfold. tauto.
Defined.

Lemma check_tcode_money tcode tsubcode description :
  check_tcode tcode tsubcode description = Ok tt →
  tcode = "Money Movement"%string →
  tsubcode ∈ money_subcodes ∧
  (tsubcode = "Balance Adjustment"%string →
   description = "Regulatory fee adjustment"%string).
Proof.
  unfold check_tcode. intros Hcheck ->.
  rewrite (bool_decide_eq_false_2 ("Money Movement"%string ∉ _)) in Hcheck
    by (intros Hnot; apply Hnot; set_unfold; tauto).
  rewrite (bool_decide_eq_true_2 ("Money Movement"%string = _)) in Hcheck by done.
  cbn in Hcheck.
  destruct (bool_decide (tsubcode ∉ money_subcodes)) eqn:Hsub; cbn in Hcheck; [done|].
  apply bool_decide_eq_false in Hsub.
  apply raise_if_ok, andb_false_iff in Hcheck.
  split; [by apply dec_stable|].
  intros Hadj. destruct Hcheck as [Hc|Hc]; apply bool_decide_eq_false in Hc; [done|].
  by apply dec_stable.
Qed.

(** X19. The Money Movement rows that are processed: but for a Transfer
    they carry fees of exactly zero, and a Balance Adjustment is a regulatory
    fee adjustment. *)
Theorem money_row_accepted (strftime_expire : string → result string)
    (str_float : Q → string) (st st' : Run) (w : Csv) :
  check_body strftime_expire str_float st w = Ok st' →
  wk_tcode w = "Money Movement"%string →
  wk_tsubcode w ∈ money_subcodes ∧
  (wk_tsubcode w ≠ "Transfer"%string → (wk_fees w == 0)%Q) ∧
  (wk_tsubcode w = "Balance Adjustment"%string →
   wk_description w = "Regulatory fee adjustment"%string).
Proof.
  intros Hbody Htcode.
  destruct (check_body_inv _ _ _ _ _ Hbody)
    as (Hcheck & _ & _ & _ & [(_ & _ & Hmoney)|(Hne & _)]); [|done].
  destruct (check_tcode_money _ _ _ Hcheck Htcode) as [Hsub Hadj].
  split; [done|]. split; [|done].
  by apply (money_movement_fees _ _ _ _ _ _ Hmoney).
Qed.

Lemma money_row_accepted_witness :
  let w := mkCsv "Money Movement" "Fee" "AAPL" "nan" "nan" None "nan" None "nan"
             None 0 (-3) "Short stock borrow fee" (Some "5WT00001"%string) in
  ∃ st', check_body strftime_padded str_half init_run w = Ok st' ∧
         (wk_fees w == 0)%Q.
Proof.
  cbn zeta. set (w := mkCsv _ _ _ _ _ _ _ _ _ _ _ _ _ _).
  destruct (check_body strftime_padded str_half init_run w) as [st'|e] eqn:Hbody;
    [|by vm_compute in Hbody].
  exists st'. split; [reflexivity|].
  by apply (money_row_accepted _ _ init_run st' w Hbody).
Defined.

(** The row of [sell_row_ignores_position] as a row of the file: it passes
    [check_tcode] and [check_param], and [check] processes it on the empty
    ledger without an error, leaving a short lot. *)
Example check_sell_expiration :
  check strftime_padded str_half
    [ mkCsv "Receive Deliver" "Expiration" "SPY" "Sell" "nan" (Some 1%Q) "01/15/2021"
        (Some 300%Q) "C" None 0 0 "Removal of option due to expiration"
        (Some "5WT00001"%string) ]
  = Ok (mkRun (mkState {[ "SPY C300 21-01-15"%string := [mkLot 0 (-1)] ]} 0 0)
          (mkSums 0 0 0 0 0 0 0 0) (Some (Some "5WT00001"%string))).
Proof. vm_compute. reflexivity. Qed.
